(** * WhatsApp Massager: recipient parsing, link construction, batched
    dispatch and the server-side send route.

    A shallow embedding of [app/page.tsx] (normalizePhone, parseNumbers,
    makeWhatsAppLink, handleFile, openLinks / openNextBatch) and of
    [app/api/send/route.ts] (POST), with the properties the specification
    states about them. *)

From Stdlib Require Import SpecFloat.
From stdpp Require Import gmap list strings.

Set Warnings "-clear-no-such-hyp".

Open Scope N_scope.

(** ** JavaScript strings

    A JavaScript string is a sequence of UTF-16 code units.  A code unit is
    an [N] below [2^16]; the functions below are total on every list. *)

Abbreviation code_unit := N (only parsing).
Abbreviation jsstring := (list N) (only parsing).

Module JsString.

(** ASCII literals of the source, as code units. *)
Fixpoint js (s : string) : jsstring :=
  match s with
  | EmptyString => []
  | String c s' => Ascii.N_of_ascii c :: js s'
  end.
Arguments js : simpl never.

Definition LF : code_unit := 10.
Definition TAB : code_unit := 9.
Definition COMMA : code_unit := 44.
Definition SEMICOLON : code_unit := 59.
Definition PLUS : code_unit := 43.
Definition PERCENT : code_unit := 37.

(** [\d] : the ten ASCII digits. *)
Definition is_digit (c : code_unit) : bool := (48 <=? c) && (c <=? 57).

Definition is_plus (c : code_unit) : bool := c =? PLUS.

(** The character class [[\n,;\t]]. *)
Definition is_sep (c : code_unit) : bool :=
  (c =? LF) || (c =? COMMA) || (c =? SEMICOLON) || (c =? TAB).

(** WhiteSpace and LineTerminator code points of ECMAScript, the ones
    [String.prototype.trim] removes. *)
Definition is_ws (c : code_unit) : bool :=
  (c =? 9) || (c =? 10) || (c =? 11) || (c =? 12) || (c =? 13) ||
  (c =? 32) || (c =? 160) || (c =? 5760) ||
  ((8192 <=? c) && (c <=? 8202)) ||
  (c =? 8232) || (c =? 8233) || (c =? 8239) || (c =? 8287) ||
  (c =? 12288) || (c =? 65279).

(** [s.split(/[\n,;\t]+/)]: scan left to right; [tok] is the piece being
    collected since the end of the last match, [in_run] tells that the
    previous code unit belonged to a separator run (the greedy [+] takes
    the whole run as one match). *)
Fixpoint split_from (tok : jsstring) (in_run : bool) (s : jsstring)
  : list jsstring :=
  match s with
  | [] => [tok]
  | c :: s' =>
      if is_sep c then
        if in_run then split_from tok true s'
        else tok :: split_from [] true s'
      else split_from (tok ++ [c]) false s'
  end.

Definition split_seps (s : jsstring) : list jsstring := split_from [] false s.

Fixpoint trimStart (s : jsstring) : jsstring :=
  match s with
  | [] => []
  | c :: s' => if is_ws c then trimStart s' else s
  end.

Definition trimEnd (s : jsstring) : jsstring := reverse (trimStart (reverse s)).

Definition trim (s : jsstring) : jsstring := trimEnd (trimStart s).

(** Truthiness of a string: non-empty. *)
Definition truthy (s : jsstring) : bool :=
  match s with [] => false | _ => true end.

Definition startsWith (c : code_unit) (s : jsstring) : bool :=
  match s with
  | [] => false
  | d :: _ => d =? c
  end.

(** [xs.join(sep)]. *)
Fixpoint join (sep : jsstring) (xs : list jsstring) : jsstring :=
  match xs with
  | [] => []
  | [x] => x
  | x :: xs' => x ++ sep ++ join sep xs'
  end.

End JsString.

Import JsString.

(** ** Recipient parser ([app/page.tsx], lines 5-34) *)

Record Recipient := mkRecipient { phone : jsstring }.

Module Parser.

Definition normalizePhone (raw : jsstring) : option jsstring :=
  (* raw.replace(/[^\d+]/g, "") *)
  let digits := filter (λ c, is_digit c || is_plus c) raw in
  if negb (truthy digits) then None else
  (* digits.startsWith("+") ? digits : digits.replace(/\D/g, "") *)
  let cleaned :=
    if startsWith PLUS digits then digits
    else filter (λ c, is_digit c) digits in
  (* cleaned.replace(/\+/g, "") *)
  let numeric := filter (λ c, negb (is_plus c)) cleaned in
  if ((length numeric <? 8) || (15 <? length numeric))%nat then None
  else Some (if startsWith PLUS numeric then numeric else numeric).

(** [text.split(/[\n,;\t]+/).map((s) => s.trim()).filter(Boolean)] *)
Definition candidates (text : jsstring) : list jsstring :=
  filter (λ s, truthy s) (trim <$> split_seps text).

(** The state of the [for] loop: the [Set] of values seen and the array
    of recipients pushed so far. *)
Definition loop_state : Type := gset jsstring * list Recipient.

Definition loop_body (st : loop_state) (c : jsstring) : loop_state :=
  let '(unique, recipients) := st in
  match normalizePhone c with
  | Some p =>
      if truthy p && negb (bool_decide (p ∈ unique))
      then ({[ p ]} ∪ unique, recipients ++ [mkRecipient p])
      else st
  | None => st
  end.

Definition parseNumbers (text : jsstring) : list Recipient :=
  snd (foldl loop_body (∅, []) (candidates text)).

(** *** Specification-side notions *)

(** The accepted, normalized values, in token order, duplicates included. *)
Definition accepted (text : jsstring) : list jsstring :=
  omap normalizePhone (candidates text).

(** Keep the element at position [i] iff it does not occur before [i]. *)
Definition keep_first_occurrences (l : list jsstring) : list jsstring :=
  omap (λ i, x ← l !! i; if bool_decide (x ∈ take i l) then None else Some x)
       (seq 0 (length l)).

(** The digit string of a token. *)
Definition digit_string (tok : jsstring) : jsstring :=
  filter (λ c, is_digit c) tok.

(** A valid phone value: 8 to 15 ASCII digits. *)
Definition valid_phone (p : jsstring) : Prop :=
  Forall (λ c, is_digit c) p ∧ (8 ≤ length p ≤ 15)%nat.

(** Exchanging separators: [s'] is [s] with some occurrences of the
    separator [a] replaced by the separator [b]. *)
Definition swapped (a b : code_unit) (c c' : code_unit) : Prop :=
  c' = c ∨ (c = a ∧ c' = b).

(** [s.replaceAll(a, b)] for one-unit strings [a] and [b]. *)
Definition replaceAll (a b : code_unit) (s : jsstring) : jsstring :=
  (λ c, if c =? a then b else c) <$> s.

End Parser.

Import Parser.

(** [handleFile]: the text handed to [setRawNumbers], given the previous
    raw text and the content of the uploaded file. *)
Definition handleFile (prev text : jsstring) : jsstring :=
  let recips := parseNumbers text in
  let joined := join [LF] (phone <$> recips) in
  if truthy prev then prev ++ [LF] ++ joined else joined.

(** ** Exceptions and results *)

Inductive exn :=
  | URIError      (* encodeURIComponent on an unpaired surrogate *)
  | TypeError     (* property read on null *)
  | Rejected.     (* a rejected promise of fetch or of res.json() *)

Inductive result (A : Type) :=
  | Ok (a : A)
  | Throw (e : exn).
Arguments Ok {A} a.
Arguments Throw {A} e.

(** ** [encodeURIComponent] and [makeWhatsAppLink] ([app/page.tsx], 36-39) *)

Module Uri.

Definition is_alpha (c : code_unit) : bool :=
  ((65 <=? c) && (c <=? 90)) || ((97 <=? c) && (c <=? 122)).

(** uriMark: - _ . ! ~ * ' ( ) *)
Definition is_mark (c : code_unit) : bool :=
  (c =? 45) || (c =? 95) || (c =? 46) || (c =? 33) || (c =? 126) ||
  (c =? 42) || (c =? 39) || (c =? 40) || (c =? 41).

(** The set left unescaped by encodeURIComponent. *)
Definition unescaped (c : code_unit) : bool :=
  is_alpha c || is_digit c || is_mark c.

Definition is_lead (c : code_unit) : bool := (55296 <=? c) && (c <=? 56319).
Definition is_trail (c : code_unit) : bool := (56320 <=? c) && (c <=? 57343).

(** UTF16SurrogatePairToCodePoint *)
Definition pair_code_point (lead trail : code_unit) : N :=
  (lead - 55296) * 1024 + (trail - 56320) + 65536.

(** The UTF-8 octets of a code point. *)
Definition utf8 (cp : N) : list N :=
  if cp <? 128 then [cp]
  else if cp <? 2048 then [192 + cp / 64; 128 + cp mod 64]
  else if cp <? 65536 then
    [224 + cp / 4096; 128 + (cp / 64) mod 64; 128 + cp mod 64]
  else
    [240 + cp / 262144; 128 + (cp / 4096) mod 64;
     128 + (cp / 64) mod 64; 128 + cp mod 64].

(** An upper-case hexadecimal digit. *)
Definition hex_digit (n : N) : code_unit :=
  if n <? 10 then 48 + n else 55 + n.

(** ["%XX"] for one octet. *)
Definition escape_octet (o : N) : jsstring :=
  [PERCENT; hex_digit (o / 16); hex_digit (o mod 16)].

Definition escape_code_point (cp : N) : jsstring :=
  mjoin (escape_octet <$> utf8 cp).

(** Encode(string, uriUnescaped) of ECMAScript: walk the code units; an
    unescaped unit is copied, otherwise CodePointAt reads one unit or a
    surrogate pair, an unpaired surrogate throws URIError, and the UTF-8
    octets of the code point are escaped. *)
Fixpoint encodeURIComponent (s : jsstring) : result jsstring :=
  match s with
  | [] => Ok []
  | c :: rest =>
      if unescaped c then
        match encodeURIComponent rest with
        | Ok r => Ok (c :: r)
        | Throw e => Throw e
        end
      else if is_lead c then
        match rest with
        | d :: rest' =>
            if is_trail d then
              match encodeURIComponent rest' with
              | Ok r => Ok (escape_code_point (pair_code_point c d) ++ r)
              | Throw e => Throw e
              end
            else Throw URIError
        | [] => Throw URIError
        end
      else if is_trail c then Throw URIError
      else
        match encodeURIComponent rest with
        | Ok r => Ok (escape_code_point c ++ r)
        | Throw e => Throw e
        end
  end.

Definition makeWhatsAppLink (phone message : jsstring) : result jsstring :=
  match encodeURIComponent message with
  | Ok text => Ok (js "https://wa.me/" ++ phone ++ js "?text=" ++ text)
  | Throw e => Throw e
  end.

(** *** Specification-side notions *)

(** A string without unpaired surrogates ([isWellFormed]). *)
Fixpoint well_formed (s : jsstring) : bool :=
  match s with
  | [] => true
  | c :: rest =>
      if is_lead c then
        match rest with
        | d :: rest' => is_trail d && well_formed rest'
        | [] => false
        end
      else negb (is_trail c) && well_formed rest
  end.

(** The code points of a string (StringToCodePoints). *)
Fixpoint code_points (s : jsstring) : list N :=
  match s with
  | [] => []
  | c :: rest =>
      if is_lead c then
        match rest with
        | d :: rest' =>
            if is_trail d then pair_code_point c d :: code_points rest'
            else c :: code_points rest
        | [] => [c]
        end
      else c :: code_points rest
  end.

(** Percent-encoding of the query component: the UTF-8 octets of the text,
    each octet kept when it is an unreserved character and written as
    ["%XX"] otherwise. *)
Definition percent_encode (s : jsstring) : jsstring :=
  mjoin ((λ o, if unescaped o then [o] else escape_octet o)
           <$> mjoin (utf8 <$> code_points s)).

End Uri.

Import Uri.

(** ** JSON values, as [JSON.parse] and [res.json()] produce them *)

Module Json.

#[warnings="-register-all"]
Inductive json :=
  | JNull
  | JBool (b : bool)
  | JNum (x : spec_float)                  (* a Number, as an IEEE 754 value *)
  | JStr (s : jsstring)
  | JArr (xs : list json)
  | JObj (fields : list (jsstring * json)).

(** A JavaScript value that may be [undefined]. *)
Abbreviation value := (option json) (only parsing).

(** ToBoolean. *)
Definition truthy_json (v : json) : bool :=
  match v with
  | JNull => false
  | JBool b => b
  | JNum (S754_zero _) | JNum S754_nan => false
  | JNum _ => true
  | JStr s => JsString.truthy s
  | JArr _ | JObj _ => true
  end.

Definition truthy_value (v : value) : bool :=
  match v with
  | Some j => truthy_json j
  | None => false
  end.

(** The own property [key] of a parsed object; a later duplicate key
    overrides an earlier one. *)
Fixpoint lookup_field (fields : list (jsstring * json)) (key : jsstring)
  : value :=
  match fields with
  | [] => None
  | (k, v) :: fields' =>
      match lookup_field fields' key with
      | Some w => Some w
      | None => if bool_decide (k = key) then Some v else None
      end
  end.

(** [v?.key] for a key that no prototype defines (recipients, message,
    error, messages, id): [undefined] on null, undefined and on every
    value that is not an object with that own property. *)
Definition opt_get (v : value) (key : jsstring) : value :=
  match v with
  | Some (JObj fields) => lookup_field fields key
  | _ => None
  end.

(** [v?.[0]]: the first element of an array, the first code unit of a
    string, the own property ["0"] of an object. *)
Definition opt_first (v : value) : value :=
  match v with
  | Some (JArr (x :: _)) => Some x
  | Some (JStr (c :: _)) => Some (JStr [c])
  | Some (JObj fields) => lookup_field fields (js "0")
  | _ => None
  end.

(** [a || b] *)
Definition or_else (a : value) (b : json) : json :=
  match a with
  | Some j => if truthy_json j then j else b
  | None => b
  end.

End Json.

Import Json.

(** What a [fetch] followed by [res.json()] can give. *)
Inductive fetch_outcome :=
  | FetchRejects                             (* fetch itself rejects *)
  | JsonRejects (ok : bool)                  (* the body is not JSON *)
  | Replies (ok : bool) (data : json).       (* res.ok and the parsed body *)

(** ** Batched link dispatcher ([app/page.tsx], lines 60-101) *)

Module Page.

(** What [alert] is called with. *)
Inductive alert_arg :=
  | AlertValue (v : json)                  (* data?.error, when truthy *)
  | AlertServerFailed                      (* "Server sending failed" *)
  | AlertQueued (count : value).           (* `Queued ${data.count} messages via API` *)

Inductive effect :=
  | SetSending (b : bool)
  | WindowOpen (url : jsstring)            (* window.open(url, "_blank") *)
  | SetTimeout (delay : Z)                 (* setTimeout(openNextBatch, delayMs) *)
  | FetchSend (recipients : list jsstring) (message : jsstring)
  | Alert (a : alert_arg).

(** Computations that leave a trace of effects and may throw. *)
Definition M (A : Type) : Type := list effect * result A.

Definition ret {A} (a : A) : M A := ([], Ok a).
Definition throw {A} (e : exn) : M A := ([], Throw e).
Definition emit (e : effect) : M unit := ([e], Ok tt).
Definition lift {A} (r : result A) : M A := ([], r).

Definition bind {A B} (m : M A) (k : A → M B) : M B :=
  match m with
  | (t, Ok a) => let '(t', r) := k a in (t ++ t', r)
  | (t, Throw e) => (t, Throw e)
  end.

#[export] Instance M_ret : MRet M := @ret.
#[export] Instance M_bind : MBind M := λ A B k m, bind m k.

(** [try { body } finally { fin }] where [fin] does not throw. *)
Definition finally {A} (body : M A) (fin : M unit) : M A :=
  let '(t, r) := body in
  let '(t', _) := fin in
  (t ++ t', r).

(** [for (const x of xs) body(x)] *)
Fixpoint for_of {A} (xs : list A) (body : A → M unit) : M unit :=
  match xs with
  | [] => ret tt
  | x :: xs' => body x ;; for_of xs' body
  end.

(** [xs.slice(start, end)] for integral [start] and [end]. *)
Definition slice {A} (xs : list A) (start end_ : Z) : list A :=
  let len := Z.of_nat (length xs) in
  let k := if (start <? 0)%Z then Z.max (len + start) 0 else Z.min start len in
  let final := if (end_ <? 0)%Z then Z.max (len + end_) 0 else Z.min end_ len in
  take (Z.to_nat (final - k)) (drop (Z.to_nat k) xs).

Section Dispatch.

(** The values the callback closes over.  [batchSize] and [delayMs] are
    numbers of the UI state; they are integers here. *)
Variables (batchSize delayMs : Z) (message : jsstring).

(** One call of [openNextBatch]; [index] is the captured cursor.  The
    result is the new cursor and whether a timer was set. *)
Definition openNextBatch (toOpen : list Recipient) (index : Z)
  : M (Z * bool) :=
  let batch := slice toOpen index (index + batchSize) in
  for_of batch (λ r,
    url ← lift (makeWhatsAppLink (phone r) message);
    emit (WindowOpen url)) ;;
  let index := (index + batchSize)%Z in
  if (index <? Z.of_nat (length toOpen))%Z
  then emit (SetTimeout delayMs) ;; ret (index, true)
  else ret (index, false).

(** How a chain of timer callbacks ended. *)
Inductive loop_status :=
  | Completed                  (* the last call set no timer *)
  | Uncaught (e : exn)         (* a call threw; no timer was set *)
  | Pending (index : Z).       (* a timer is still set *)

(** The calls of [openNextBatch], each one (after the first) fired by
    the timer the previous one set; at most [fuel] calls are run.  One
    trace per call. *)
Fixpoint batch_loop (fuel : nat) (toOpen : list Recipient) (index : Z)
  : list (list effect) * loop_status :=
  match fuel with
  | O => ([], Pending index)
  | S fuel' =>
      match openNextBatch toOpen index with
      | (t, Throw e) => ([t], Uncaught e)
      | (t, Ok (_, false)) => ([t], Completed)
      | (t, Ok (index', true)) =>
          let '(ts, st) := batch_loop fuel' toOpen index' in
          (t :: ts, st)
      end
  end.

(** The reply of [/api/send], as the page sees it. *)
Variable server : list jsstring → jsstring → fetch_outcome.

Definition sendViaApi (recipients : list Recipient) : M unit :=
  let payload := phone <$> recipients in
  emit (FetchSend payload message) ;;
  match server payload message with
  | FetchRejects => throw Rejected
  | JsonRejects _ => throw Rejected
  | Replies false data =>
      let err := opt_get (Some data) (js "error") in
      emit (Alert (if truthy_value err
                   then AlertValue (or_else err JNull)
                   else AlertServerFailed))
  | Replies true JNull => throw TypeError
  | Replies true data =>
      emit (Alert (AlertQueued (opt_get (Some data) (js "count"))))
  end.

(** [openLinks], up to its return: the result tells whether the first
    call of [openNextBatch] left a timer, and with which cursor. *)
Definition openLinks (recipients : list Recipient) (useApi : bool)
  : M (option Z) :=
  if negb (truthy message) || (length recipients =? 0)%nat then ret None
  else
    emit (SetSending true) ;;
    finally
      (if useApi then sendViaApi recipients ;; ret None
       else
         let toOpen := recipients in
         '(index, timer) ← openNextBatch toOpen 0;
         ret (if timer : bool then Some (index : Z) else None))
      (emit (SetSending false)).

(** A click on the button and everything it causes: the trace of
    [openLinks], then one trace per timer callback. *)
Definition dispatch (fuel : nat) (recipients : list Recipient)
    (useApi : bool) : list (list effect) * loop_status :=
  match openLinks recipients useApi with
  | (t, Throw e) => ([t], Uncaught e)
  | (t, Ok None) => ([t], Completed)
  | (t, Ok (Some index)) =>
      let '(ts, st) := batch_loop fuel recipients index in
      (t :: ts, st)
  end.

End Dispatch.

(** *** Specification-side notions *)

(** The link of a recipient, given the encoded message. *)
Definition link_for (text : jsstring) (r : Recipient) : jsstring :=
  js "https://wa.me/" ++ phone r ++ js "?text=" ++ text.

(** The message can be encoded, and [text] is its encoding. *)
Definition may_open (message text : jsstring) : Prop :=
  encodeURIComponent message = Ok text.

(** The trace of a call of [openNextBatch] that opens the links [g] and
    sets a timer when [more] recipients remain. *)
Definition call_trace (delayMs : Z) (more : bool) (g : list jsstring)
  : list effect :=
  (WindowOpen <$> g) ++ (if more then [SetTimeout delayMs] else []).

(** [ceil (n / b)] *)
Definition ceil_div (n b : nat) : nat := ((n + b - 1) / b)%nat.

(** Consecutive pieces of [b] elements, the last one possibly shorter. *)
Fixpoint chunks_upto {A} (fuel b : nat) (l : list A) : list (list A) :=
  match fuel, l with
  | S fuel', _ :: _ => take b l :: chunks_upto fuel' b (drop b l)
  | _, _ => []
  end.

Definition chunks {A} (b : nat) (l : list A) : list (list A) :=
  chunks_upto (length l) b l.

(** The URLs a trace opens, in order. *)
Definition opens (t : list effect) : list jsstring :=
  omap (λ e, match e with WindowOpen url => Some url | _ => None end) t.

(** The groups of opens: one per task that opened anything. *)
Definition open_groups (log : list (list effect)) : list (list jsstring) :=
  filter (λ g, g ≠ []) (opens <$> log).

(** Sample data: [n] times the recipient "14155552671", and a server that
    cannot be reached. *)
Definition sample_recipients (n : nat) : list Recipient :=
  replicate n (mkRecipient (js "14155552671")).

Definition unreachable : list jsstring → jsstring → fetch_outcome :=
  λ _ _, FetchRejects.

(** The UI state the dispatcher can change. *)
Definition apply_effect (sending : bool) (e : effect) : bool :=
  match e with
  | SetSending b => b
  | _ => sending
  end.

Definition is_api_call (e : effect) : bool :=
  match e with FetchSend _ _ => true | _ => false end.

Definition is_open (e : effect) : bool :=
  match e with WindowOpen _ => true | _ => false end.

End Page.

(** ** The send route ([app/api/send/route.ts]) *)

Module Route.

(** The two environment variables, read once at module load. *)
Record env := mkEnv {
  ACCESS_TOKEN : option jsstring;       (* process.env.WHATSAPP_ACCESS_TOKEN *)
  PHONE_NUMBER_ID : option jsstring     (* process.env.WHATSAPP_PHONE_NUMBER_ID *)
}.

Definition truthy_var (v : option jsstring) : bool :=
  match v with
  | Some s => JsString.truthy s
  | None => false
  end.

(** One outbound call to the Graph API. *)
Record outbound := mkOutbound {
  url : jsstring;
  authorization : jsstring;
  to_field : json;                      (* "to" of the JSON body *)
  text_body : json                      (* "text": { "body": message } *)
}.

(** The [error] of a result record. *)
Inductive failure :=
  | ApiError (reply : json)             (* error: json *)
  | Caught (e : exn).                   (* error: String(err) *)

Record send_result := mkResult {
  to : json;
  ok : bool;
  id : value;
  error : option failure
}.

Inductive response_body :=
  | ErrorBody (error : jsstring)
  | SendBody (count : nat) (results : list send_result).

Record response := mkResponse {
  status : Z;
  body : response_body
}.

Definition is_array (v : json) : bool :=
  match v with JArr _ => true | _ => false end.

Definition elements (v : json) : list json :=
  match v with JArr xs => xs | _ => [] end.

Section Handler.

(** The outside world the handler talks to: [graph w r] is what the call
    [r] gives in the world [w], and the world after it. *)
Context {world : Type}.
Variable graph : world → outbound → fetch_outcome * world.
Variable cfg : env.

Definition request_for (to message : json) : outbound :=
  {| url := js "https://graph.facebook.com/v20.0/"
            ++ default [] (PHONE_NUMBER_ID cfg) ++ js "/messages";
     authorization := js "Bearer " ++ default [] (ACCESS_TOKEN cfg);
     to_field := to;
     text_body := message |}.

(** The body of the [for] loop: one call, one record pushed. *)
Definition send_one (message to : json) (w : world)
  : send_result * world :=
  let '(outcome, w') := graph w (request_for to message) in
  (match outcome with
   | FetchRejects => mkResult to false None (Some (Caught Rejected))
   | JsonRejects _ => mkResult to false None (Some (Caught Rejected))
   | Replies false reply => mkResult to false None (Some (ApiError reply))
   | Replies true reply =>
       mkResult to true
         (opt_get (opt_first (opt_get (Some reply) (js "messages"))) (js "id"))
         None
   end, w').

(** The state of the loop: the results array, the calls made so far and
    the world. *)
Definition send_step (message : json)
    (st : list send_result * list outbound * world) (to : json)
  : list send_result * list outbound * world :=
  let '(results, calls, w) := st in
  let '(r, w') := send_one message to w in
  (results ++ [r], calls ++ [request_for to message], w').

(** [POST]: the response, the outbound calls made, and the world after. *)
Definition POST (req_body : value) (w : world)
  : response * list outbound * world :=
  (* req.json().catch(() => null) *)
  let recipients := or_else (opt_get req_body (js "recipients")) (JArr []) in
  let message := or_else (opt_get req_body (js "message")) (JStr []) in
  if negb (is_array recipients) || (length (elements recipients) =? 0)%nat
     || negb (truthy_json message)
  then (mkResponse 400 (ErrorBody (js "Invalid payload")), [], w)
  else if negb (truthy_var (ACCESS_TOKEN cfg))
          || negb (truthy_var (PHONE_NUMBER_ID cfg))
  then (mkResponse 501 (ErrorBody (js "Server not configured for API sending")),
        [], w)
  else
    let '(results, calls, w') :=
      foldl (send_step message) ([], [], w) (elements recipients) in
    let okCount := length (filter (λ r, ok r) results) in
    (mkResponse 200 (SendBody okCount results), calls, w').

End Handler.

(** *** Specification-side notions *)

(** The payload check as the interface states it: [recipients] is a
    non-empty array and [message] is non-empty. *)
Definition valid_payload (req_body : value) : bool :=
  match opt_get req_body (js "recipients"), opt_get req_body (js "message") with
  | Some (JArr (_ :: _)), Some m => truthy_json m
  | _, _ => false
  end.

Definition configured (cfg : env) : bool :=
  match ACCESS_TOKEN cfg, PHONE_NUMBER_ID cfg with
  | Some (_ :: _), Some (_ :: _) => true
  | _, _ => false
  end.

Definition payload_recipients (req_body : value) : list json :=
  match opt_get req_body (js "recipients") with
  | Some (JArr xs) => xs
  | _ => []
  end.

Definition payload_message (req_body : value) : json :=
  default JNull (opt_get req_body (js "message")).

Definition replied_ok (o : fetch_outcome) : bool :=
  match o with Replies true _ => true | _ => false end.

(** A strictly sequential run over the recipients: each call is made in
    the world the previous call left, and gives one record, whatever its
    outcome; the record says whether the call succeeded and carries an
    error exactly when it did not. *)
Inductive sequential_run {world : Type}
    (graph : world → outbound → fetch_outcome * world)
    (request : json → outbound)
  : world → list json → list send_result → list outbound → world → Prop :=
  | run_done w : sequential_run graph request w [] [] [] w
  | run_next w x xs r rs calls w' :
      to r = x →
      ok r = replied_ok (graph w (request x)).1 →
      (ok r = false ↔ is_Some (error r)) →
      sequential_run graph request (graph w (request x)).2 xs rs calls w' →
      sequential_run graph request w (x :: xs) (r :: rs) (request x :: calls) w'.

(** Sample data: a world that counts the calls made, in which every
    second call is rejected by the API; a configured environment; a
    payload with three recipients. *)
Definition flaky_graph (w : nat) (r : outbound) : fetch_outcome * nat :=
  (if Nat.even w
   then Replies true (JObj [(js "messages", JArr [JObj [(js "id", JStr (js "wamid.1"))]])])
   else Replies false (JObj [(js "error", JStr (js "rejected"))]),
   S w).

Definition sample_env : env :=
  mkEnv (Some (js "token")) (Some (js "1234567890")).

Definition sample_payload : value :=
  Some (JObj [(js "recipients",
               JArr [JStr (js "14155552671"); JStr (js "5511999999999");
                     JStr (js "447911123456")]);
              (js "message", JStr (js "Hi there!"))]).

End Route.

(** ** Export of the links ([app/page.tsx], lines 103-112) *)

Module Exporter.

(** The file handed to the browser: the Blob and the [download] name. *)
Record download := mkDownload {
  filename : jsstring;
  mime : jsstring;
  content : jsstring
}.

(** [xs.map(f)] for a callback that may throw: the first exception ends
    the map. *)
Fixpoint map_throwing {A B} (f : A → result B) (xs : list A)
  : result (list B) :=
  match xs with
  | [] => Ok []
  | x :: xs' =>
      match f x with
      | Throw e => Throw e
      | Ok y =>
          match map_throwing f xs' with
          | Ok ys => Ok (y :: ys)
          | Throw e => Throw e
          end
      end
  end.

Definition exportLinks (recipients : list Recipient) (message : jsstring)
  : result download :=
  match map_throwing (λ r, makeWhatsAppLink (phone r) message) recipients with
  | Throw e => Throw e
  | Ok lines =>
      Ok (mkDownload (js "whatsapp_links.txt")
            (js "text/plain;charset=utf-8") (join [LF] lines))
  end.

End Exporter.

Import Exporter.

(** ** The page and the route together *)

Module Wire.

(** What [req.json()] gives the route for the body the page sends,
    [JSON.stringify({ recipients, message })]: stringify followed by parse
    gives back the same strings. *)
Definition request_json (phones : list jsstring) (message : jsstring) : json :=
  JObj [(js "recipients", JArr (JStr <$> phones));
        (js "message", JStr message)].

(** *** Specification-side notions *)

(** Every code unit is below [2^16], as in every JavaScript string. *)
Definition utf16 (s : jsstring) : Prop := Forall (λ c, c < 65536) s.

(** A character that needs no escaping in a URI component, or the [%] of
    an escape. *)
Definition url_safe (c : code_unit) : bool := unescaped c || (c =? PERCENT).

Definition is_timer (e : Page.effect) : bool :=
  match e with Page.SetTimeout _ => true | _ => false end.

Definition is_alert (e : Page.effect) : bool :=
  match e with Page.Alert _ => true | _ => false end.

Definition is_set_sending (e : Page.effect) : bool :=
  match e with Page.SetSending _ => true | _ => false end.

(** An effect of [openNextBatch]: a tab or a timer. *)
Definition batch_effect (e : Page.effect) : Prop :=
  Page.is_open e ∨ is_timer e.

End Wire.

Import Wire.

(** ** Reading a link back

    The receiving side of the link: percent-decoding of the query text,
    then UTF-8 decoding, then UTF-16 encoding, as [decodeURIComponent]
    does.  Specification-side: the repository only builds links. *)

Module Decode.

Definition unhex (c : code_unit) : option N :=
  if is_digit c then Some (c - 48)
  else if (65 <=? c) && (c <=? 70) then Some (c - 55)
  else if (97 <=? c) && (c <=? 102) then Some (c - 87)
  else None.

(** The octets of an escaped text: [%XX] is one octet, any other
    character stands for itself. *)
Fixpoint unescape (t : jsstring) : option (list N) :=
  match t with
  | [] => Some []
  | c :: t' =>
      if c =? PERCENT then
        match t' with
        | h :: l :: t'' =>
            hi ← unhex h; lo ← unhex l; os ← unescape t'';
            Some (hi * 16 + lo :: os)
        | _ => None
        end
      else os ← unescape t'; Some (c :: os)
  end.

Definition continuation (o : N) : bool := (128 <=? o) && (o <? 192).

(** The code points of a sequence of UTF-8 octets. *)
Fixpoint utf8_decode (os : list N) : option (list N) :=
  match os with
  | [] => Some []
  | o :: os1 =>
      if o <? 128 then cps ← utf8_decode os1; Some (o :: cps)
      else if (192 <=? o) && (o <? 224) then
        match os1 with
        | o1 :: os2 =>
            if continuation o1 then
              cps ← utf8_decode os2;
              Some ((o - 192) * 64 + (o1 - 128) :: cps)
            else None
        | _ => None
        end
      else if (224 <=? o) && (o <? 240) then
        match os1 with
        | o1 :: o2 :: os3 =>
            if continuation o1 && continuation o2 then
              cps ← utf8_decode os3;
              Some ((o - 224) * 4096 + (o1 - 128) * 64 + (o2 - 128) :: cps)
            else None
        | _ => None
        end
      else if (240 <=? o) && (o <? 248) then
        match os1 with
        | o1 :: o2 :: o3 :: os4 =>
            if continuation o1 && continuation o2 && continuation o3 then
              cps ← utf8_decode os4;
              Some ((o - 240) * 262144 + (o1 - 128) * 4096
                    + (o2 - 128) * 64 + (o3 - 128) :: cps)
            else None
        | _ => None
        end
      else None
  end.

(** The UTF-16 code units of a code point. *)
Definition utf16_units (cp : N) : jsstring :=
  if cp <? 65536 then [cp]
  else [55296 + (cp - 65536) / 1024; 56320 + (cp - 65536) mod 1024].

Definition decode_text (t : jsstring) : option jsstring :=
  os ← unescape t; cps ← utf8_decode os; Some (mjoin (utf16_units <$> cps)).

End Decode.

Import Decode.

(** * Properties *)

Import Page Route.

(** ** Character classes *)

Section Classes.

Lemma digit_not_plus c : is_digit c → ¬ is_plus c.
Proof.
  unfold is_digit, is_plus, PLUS.
  rewrite andb_True, !Is_true_true, !N.leb_le, N.eqb_eq. lia.
Qed.

Lemma digit_not_sep c : is_digit c → is_sep c = false.
Proof.
  unfold is_digit, is_sep, LF, COMMA, SEMICOLON, TAB.
  rewrite andb_True, !Is_true_true, !N.leb_le. intros [? ?].
  repeat (apply orb_false_intro); apply N.eqb_neq; lia.
Qed.

Lemma digit_not_ws c : is_digit c → is_ws c = false.
Proof.
  unfold is_digit, is_ws.
  rewrite andb_True, !Is_true_true, !N.leb_le. intros [? ?].
  repeat (apply orb_false_intro);
    try (apply N.eqb_neq; lia).
  apply andb_false_iff. left. apply N.leb_gt. lia.
Qed.

End Classes.

(** ** [normalizePhone] *)

Section Normalize.

Lemma numeric_is_digit_string raw :
  filter (λ c, negb (is_plus c))
    (if startsWith PLUS (filter (λ c, is_digit c || is_plus c) raw)
     then filter (λ c, is_digit c || is_plus c) raw
     else filter (λ c, is_digit c) (filter (λ c, is_digit c || is_plus c) raw))
  = digit_string raw.
Proof.
  unfold digit_string.
  destruct (startsWith _ _).
  - rewrite list_filter_filter. apply list_filter_iff. intros c.
    pose proof (digit_not_plus c).
    destruct (is_digit c), (is_plus c); simpl in *; naive_solver.
  - rewrite !list_filter_filter. apply list_filter_iff. intros c.
    pose proof (digit_not_plus c).
    destruct (is_digit c), (is_plus c); simpl in *; naive_solver.
Qed.

Lemma digit_string_digits tok : Forall (λ c, is_digit c) (digit_string tok).
Proof.
  apply Forall_forall. intros c Hc.
  by apply list_elem_of_filter in Hc as [? _].
Qed.

Lemma digit_string_id p : Forall (λ c, is_digit c) p → digit_string p = p.
Proof.
  unfold digit_string. induction 1 as [|c p Hc _ IH]; [done|].
  rewrite filter_cons_True by done. by rewrite IH.
Qed.

(** [normalizePhone] accepts a token exactly when its digit string has 8
    to 15 digits, and returns that digit string. *)
Lemma normalizePhone_Some raw p :
  normalizePhone raw = Some p ↔
  p = digit_string raw ∧ (8 ≤ length p ≤ 15)%nat.
Proof.
  unfold normalizePhone. rewrite numeric_is_digit_string.
  destruct (truthy (filter _ raw)) eqn:Hd; simpl.
  - replace (if startsWith PLUS (digit_string raw) then digit_string raw
             else digit_string raw) with (digit_string raw)
      by (by destruct (startsWith _ _)).
    destruct (_ || _)%bool eqn:Hlen.
    + apply orb_true_iff in Hlen as [H%Nat.ltb_lt|H%Nat.ltb_lt];
        split; [done|intros [-> ?]; lia|done|intros [-> ?]; lia].
    + apply orb_false_iff in Hlen as [H1%Nat.ltb_ge H2%Nat.ltb_ge].
      split; [intros [= <-]; split; [done|lia]|intros [-> _]; done].
  - split; [done|]. intros [-> Hlen]. exfalso.
    assert (digit_string raw = []) as Heq; [|rewrite Heq in Hlen; simpl in Hlen; lia].
    unfold digit_string.
    rewrite <- (list_filter_filter_l (λ c, is_digit c)
                  (λ c, is_digit c || is_plus c)).
    + by destruct (filter (λ c, is_digit c || is_plus c) raw).
    + intros c Hc. apply orb_True. by left.
Qed.

Lemma normalizePhone_None raw :
  normalizePhone raw = None ↔ ¬ (8 ≤ length (digit_string raw) ≤ 15)%nat.
Proof.
  destruct (normalizePhone raw) as [p|] eqn:Hn.
  - apply normalizePhone_Some in Hn as [-> ?]. naive_solver.
  - split; [|done]. intros _ Hlen.
    assert (normalizePhone raw = Some (digit_string raw)) as Hs
      by (by apply normalizePhone_Some).
    congruence.
Qed.

Lemma normalizePhone_truthy raw p : normalizePhone raw = Some p → truthy p.
Proof.
  intros [-> Hlen]%normalizePhone_Some.
  destruct (digit_string raw); [simpl in Hlen; lia|done].
Qed.

Lemma normalizePhone_fixed p :
  Forall (λ c, is_digit c) p → (8 ≤ length p ≤ 15)%nat →
  normalizePhone p = Some p.
Proof.
  intros Hd Hlen. apply normalizePhone_Some. by rewrite digit_string_id.
Qed.

End Normalize.

(** ** First occurrences *)

Section FirstOccurrences.

Implicit Types l : list jsstring.

Lemma keep_first_snoc l x :
  keep_first_occurrences (l ++ [x])
  = keep_first_occurrences l ++ (if bool_decide (x ∈ l) then [] else [x]).
Proof.
  unfold keep_first_occurrences.
  rewrite length_app, seq_app, omap_app. simpl. f_equal.
  - apply list_omap_ext, Forall2_same_length_lookup. split; [done|].
    intros i j k Hj Hk. assert (j = k) as -> by congruence.
    apply lookup_seq in Hk as [-> Hlt]. simpl.
    rewrite lookup_app_l by done. by rewrite take_app_le by lia.
  - rewrite lookup_app_r by done. rewrite Nat.sub_diag. simpl.
    rewrite take_app_length. by destruct (bool_decide _).
Qed.

Lemma keep_first_elem_of l x : x ∈ keep_first_occurrences l ↔ x ∈ l.
Proof.
  induction l as [|y l IH] using rev_ind; [done|].
  rewrite keep_first_snoc, !elem_of_app, IH.
  case_bool_decide; set_solver.
Qed.

Lemma keep_first_NoDup l : NoDup (keep_first_occurrences l).
Proof.
  induction l as [|y l IH] using rev_ind; [constructor|].
  rewrite keep_first_snoc. apply NoDup_app. split; [done|].
  case_bool_decide as Hy.
  - split; [|constructor]. intros x _. apply not_elem_of_nil.
  - split; [|apply NoDup_singleton].
    intros x Hx Hxy%list_elem_of_singleton. subst x.
    by apply (proj1 (keep_first_elem_of _ _)) in Hx.
Qed.

Lemma keep_first_sublist l : keep_first_occurrences l `sublist_of` l.
Proof.
  induction l as [|y l IH] using rev_ind; [done|].
  rewrite keep_first_snoc. apply sublist_app; [done|].
  case_bool_decide; [apply sublist_nil_l|done].
Qed.

Lemma keep_first_id l : NoDup l → keep_first_occurrences l = l.
Proof.
  induction l as [|y l IH] using rev_ind; [done|].
  intros (Hl & Hy & _)%NoDup_app. rewrite keep_first_snoc, IH by done.
  rewrite bool_decide_false; [done|]. intros Hin. apply (Hy y Hin). set_solver.
Qed.

(** The loop computes the first occurrences of the accepted values, and
    its [Set] holds exactly the values seen. *)
Lemma loop_invariant (cs : list jsstring) :
  foldl loop_body (∅, []) cs
  = (list_to_set (omap normalizePhone cs),
     mkRecipient <$> keep_first_occurrences (omap normalizePhone cs)).
Proof.
  induction cs as [|c cs IH] using rev_ind; [done|].
  rewrite foldl_snoc, IH, omap_app. unfold loop_body. simpl.
  destruct (normalizePhone c) as [p|] eqn:Hp; simpl.
  - rewrite (Is_true_true_1 _ (normalizePhone_truthy _ _ Hp)). simpl.
    rewrite keep_first_snoc, fmap_app, list_to_set_app_L.
    case_bool_decide as Hin; rewrite elem_of_list_to_set in Hin.
    + rewrite bool_decide_true by done. simpl. rewrite app_nil_r.
      f_equal. set_solver.
    + rewrite bool_decide_false by done. simpl. f_equal. set_solver.
  - by rewrite !app_nil_r.
Qed.

Lemma parseNumbers_keep_first text :
  parseNumbers text = mkRecipient <$> keep_first_occurrences (accepted text).
Proof. unfold parseNumbers, accepted. by rewrite loop_invariant. Qed.

Lemma phones_parseNumbers text :
  phone <$> parseNumbers text = keep_first_occurrences (accepted text).
Proof.
  rewrite parseNumbers_keep_first, <- list_fmap_compose.
  apply list_fmap_id.
Qed.

Lemma accepted_valid text p :
  p ∈ accepted text →
  Forall (λ c, is_digit c) p ∧ (8 ≤ length p ≤ 15)%nat.
Proof.
  intros (tok & _ & [-> Hlen]%normalizePhone_Some)%list_elem_of_omap.
  split; [apply digit_string_digits|done].
Qed.

End FirstOccurrences.

(** ** Splitting, trimming, joining *)

Section Tokens.

Lemma replaceAll_swapped a b s : Forall2 (swapped a b) s (replaceAll a b s).
Proof.
  unfold replaceAll. apply Forall2_fmap_r, Forall_Forall2_diag, Forall_forall.
  intros c _. unfold swapped. simpl.
  destruct (N.eqb_spec c a); [right|left]; done.
Qed.

Lemma split_from_swapped a b s s' :
  is_sep a → is_sep b → Forall2 (swapped a b) s s' →
  ∀ tok in_run, split_from tok in_run s' = split_from tok in_run s.
Proof.
  intros Ha Hb. induction 1 as [|c c' s s' Hc _ IH]; intros tok in_run; [done|].
  simpl. destruct Hc as [->|[-> ->]].
  - destruct (is_sep c), in_run; by rewrite ?IH.
  - rewrite (Is_true_true_1 _ Ha), (Is_true_true_1 _ Hb).
    destruct in_run; by rewrite IH.
Qed.

(** A piece without separators is collected whole. *)
Lemma split_from_piece p s tok in_run :
  p ≠ [] → Forall (λ c, is_sep c = false) p →
  split_from tok in_run (p ++ s) = split_from (tok ++ p) false s.
Proof.
  intros Hne Hp. revert tok in_run Hne.
  induction Hp as [|c p Hc Hp IH]; intros tok in_run Hne; [done|].
  simpl. rewrite Hc. destruct p as [|d p].
  - done.
  - rewrite IH by done. by rewrite <- app_assoc.
Qed.

Lemma split_from_join ps in_run :
  ps ≠ [] →
  Forall (λ p, p ≠ [] ∧ Forall (λ c, is_sep c = false) p) ps →
  split_from [] in_run (join [LF] ps) = ps.
Proof.
  intros Hne Hps. revert in_run Hne.
  induction Hps as [|p ps [Hp Hsep] Hps IH]; intros in_run Hne; [done|].
  destruct ps as [|q ps].
  - simpl. rewrite <- (app_nil_r p) at 1.
    by rewrite split_from_piece.
  - change (join [LF] (p :: q :: ps)) with (p ++ [LF] ++ join [LF] (q :: ps)).
    rewrite split_from_piece by done. simpl. by rewrite IH.
Qed.

Lemma trimStart_id s : Forall (λ c, is_ws c = false) s → trimStart s = s.
Proof. intros [|c s' Hc _]; [done|]. simpl. by rewrite Hc. Qed.

Lemma trim_id s : Forall (λ c, is_ws c = false) s → trim s = s.
Proof.
  intros Hs. unfold trim, trimEnd. rewrite (trimStart_id s) by done.
  rewrite trimStart_id by (by apply Forall_reverse).
  apply reverse_involutive.
Qed.

Lemma valid_phone_piece p :
  valid_phone p → p ≠ [] ∧ Forall (λ c, is_sep c = false) p.
Proof.
  intros [Hd Hlen]. split.
  - intros ->. simpl in Hlen. lia.
  - eapply Forall_impl; [done|]. intros c. apply digit_not_sep.
Qed.

Lemma valid_phone_trim p : valid_phone p → trim p = p.
Proof.
  intros [Hd _]. apply trim_id.
  eapply Forall_impl; [done|]. intros c. apply digit_not_ws.
Qed.

(** The tokens of a newline-joined list of valid phone values are those
    values. *)
Lemma candidates_join ps :
  Forall valid_phone ps → candidates (join [LF] ps) = ps.
Proof.
  intros Hps. unfold candidates, split_seps.
  destruct (decide (ps = [])) as [->|Hne]; [done|].
  rewrite split_from_join; [|done|by eapply Forall_impl, valid_phone_piece].
  induction Hps as [|p ps Hp Hps IH]; [done|].
  rewrite fmap_cons, (valid_phone_trim p) by done.
  rewrite filter_cons_True.
  - f_equal. destruct ps; [done|]. by apply IH.
  - apply valid_phone_piece in Hp as [Hp _]. by destruct p.
Qed.

Lemma accepted_join ps :
  Forall valid_phone ps → accepted (join [LF] ps) = ps.
Proof.
  intros Hps. unfold accepted. rewrite candidates_join by done.
  induction Hps as [|p ps [Hd Hlen] _ IH]; [done|].
  change (omap normalizePhone (p :: ps))
    with (match normalizePhone p with
          | Some q => q :: omap normalizePhone ps
          | None => omap normalizePhone ps
          end).
  rewrite normalizePhone_fixed by done. by rewrite IH.
Qed.

End Tokens.

(** ** The recipient parser *)

Section ParserClaims.

(** C1: for every input text, [parseNumbers] returns the accepted,
    normalized phone values with duplicates (exact string equality)
    removed: the value at each position is kept exactly when it does not
    occur earlier, so the result has no duplicate, has the same members as
    the accepted values and keeps their order; and parsing
    "+14155552671\n14155552671" gives the single recipient
    "14155552671". *)
Theorem parseNumbers_first_occurrences (text : jsstring) :
  parseNumbers text = mkRecipient <$> keep_first_occurrences (accepted text)
  ∧ NoDup (phone <$> parseNumbers text)
  ∧ (∀ p, p ∈ phone <$> parseNumbers text ↔ p ∈ accepted text)
  ∧ (phone <$> parseNumbers text) `sublist_of` accepted text
  ∧ parseNumbers (js "+14155552671" ++ [LF] ++ js "14155552671")
    = [mkRecipient (js "14155552671")].
Proof.
  rewrite phones_parseNumbers. split_and!.
  - apply parseNumbers_keep_first.
  - apply keep_first_NoDup.
  - intros p. apply keep_first_elem_of.
  - apply keep_first_sublist.
  - vm_compute. reflexivity.
Qed.

(** C2: for every input text, every recipient of [parseNumbers] has a
    phone value made of ASCII digits only, of length 8 to 15; and a token
    whose digit string has a length outside 8..15 is rejected by
    [normalizePhone] and its digit string is not among the result. *)
Theorem parseNumbers_digits_8_15 (text : jsstring) :
  (∀ r, r ∈ parseNumbers text →
        Forall (λ c, is_digit c) (phone r) ∧ (8 ≤ length (phone r) ≤ 15)%nat)
  ∧ (∀ tok, ¬ (8 ≤ length (digit_string tok) ≤ 15)%nat →
            normalizePhone tok = None
            ∧ digit_string tok ∉ phone <$> parseNumbers text).
Proof.
  assert (∀ p, p ∈ phone <$> parseNumbers text → valid_phone p) as Hvalid.
  { intros p. rewrite phones_parseNumbers.
    intros Hp. apply (proj1 (keep_first_elem_of _ _)) in Hp.
    by apply accepted_valid in Hp. }
  split.
  - intros r Hr. apply Hvalid. by apply list_elem_of_fmap_2.
  - intros tok Hlen. split; [by apply normalizePhone_None|].
    intros [_ ?]%Hvalid. done.
Qed.

(** C3: for every text and every two separators [a], [b] among newline,
    comma, semicolon and tab, replacing occurrences of [a] by [b] (all of
    them, or any of them) leaves the tokens after trimming unchanged, and
    so the parse result. *)
Theorem separators_interchangeable (a b : code_unit) (text text' : jsstring) :
  is_sep a → is_sep b → Forall2 (swapped a b) text text' →
  candidates text' = candidates text
  ∧ parseNumbers text' = parseNumbers text
  ∧ parseNumbers (replaceAll a b text) = parseNumbers text.
Proof.
  intros Ha Hb Hs.
  assert (∀ t t', Forall2 (swapped a b) t t' → candidates t' = candidates t)
    as Hcand.
  { intros t t' Ht. unfold candidates, split_seps.
    by rewrite (split_from_swapped a b t t'). }
  split_and!.
  - by apply Hcand.
  - unfold parseNumbers. by rewrite (Hcand text text').
  - unfold parseNumbers.
    by rewrite (Hcand text (replaceAll a b text) (replaceAll_swapped a b text)).
Qed.

Lemma separators_interchangeable_witness :
  candidates (js "4479111234;56,+5511999999999")
  = candidates (js "4479111234,56,+5511999999999")
  ∧ parseNumbers (js "4479111234;56,+5511999999999")
    = parseNumbers (js "4479111234,56,+5511999999999")
  ∧ parseNumbers (replaceAll COMMA SEMICOLON (js "4479111234,56,+5511999999999"))
    = parseNumbers (js "4479111234,56,+5511999999999").
Proof.
  apply (separators_interchangeable COMMA SEMICOLON).
  - vm_compute. exact I.
  - vm_compute. exact I.
  - vm_compute.
    repeat (constructor 2;
            [first [left; reflexivity | right; split; reflexivity]|]).
    constructor 1.
Defined.

(** C10: for every text [t], joining the phone values of [parseNumbers t]
    with newlines and parsing the result gives [parseNumbers t] again; so
    does parsing what [handleFile] stores when the raw text was empty. *)
Theorem parseNumbers_join_roundtrip (t : jsstring) :
  parseNumbers (join [LF] (phone <$> parseNumbers t)) = parseNumbers t
  ∧ parseNumbers (handleFile [] t) = parseNumbers t.
Proof.
  assert (parseNumbers (join [LF] (phone <$> parseNumbers t)) = parseNumbers t)
    as Hrt; [|by split].
  rewrite (parseNumbers_keep_first (join _ _)).
  rewrite accepted_join.
  - rewrite keep_first_id.
    + generalize (parseNumbers t). intros l.
      induction l as [|[p] l IH]; [done|]. rewrite !fmap_cons. by f_equal.
    + rewrite phones_parseNumbers. apply keep_first_NoDup.
  - apply Forall_forall. intros p. rewrite phones_parseNumbers.
    intros Hp. apply (proj1 (keep_first_elem_of _ _)) in Hp.
    by apply accepted_valid in Hp.
Qed.

(** The other parser examples of the specification. *)
Example parseNumbers_order :
  parseNumbers (js "447911123456,+5511999999999,447911123456")
  = [mkRecipient (js "447911123456"); mkRecipient (js "5511999999999")].
Proof. vm_compute. reflexivity. Qed.

Example normalizePhone_too_short : normalizePhone (js "12345") = None.
Proof. vm_compute. reflexivity. Qed.

Example normalizePhone_too_long :
  normalizePhone (js "1234567890123456") = None.
Proof. vm_compute. reflexivity. Qed.

Example normalizePhone_formatted :
  normalizePhone (js "+1 (415) 555-2671") = Some (js "14155552671").
Proof. vm_compute. reflexivity. Qed.

End ParserClaims.

(** ** Link construction *)

Section Links.

Lemma unescaped_ascii c : unescaped c → c < 128.
Proof.
  unfold unescaped, is_alpha, is_digit, is_mark.
  rewrite !orb_True, !andb_True, !Is_true_true, !N.leb_le, !N.eqb_eq. lia.
Qed.

Lemma unescaped_not_surrogate c :
  unescaped c → is_lead c = false ∧ is_trail c = false.
Proof.
  intros Hc%unescaped_ascii. unfold is_lead, is_trail.
  split; apply andb_false_iff; left; apply N.leb_gt; lia.
Qed.

Lemma utf8_ascii cp : cp < 128 → utf8 cp = [cp].
Proof. intros H. unfold utf8. by rewrite (proj2 (N.ltb_lt _ _) H). Qed.

(** Beyond ASCII every octet has its high bit set. *)
Lemma utf8_high cp : 128 ≤ cp → Forall (λ o, 128 ≤ o) (utf8 cp).
Proof.
  intros H. unfold utf8. rewrite (proj2 (N.ltb_ge _ _) H).
  assert (∀ a b, 128 ≤ a → 128 ≤ a + b) as Hadd by (intros; lia).
  repeat case_match;
    repeat (constructor 2; [apply Hadd; lia|]); constructor 1.
Qed.

(** The octets of a code point that is not left as it is are all escaped. *)
Lemma escape_code_point_octets cp :
  unescaped cp = false →
  mjoin ((λ o, if unescaped o then [o] else escape_octet o) <$> utf8 cp)
  = escape_code_point cp.
Proof.
  intros Hcp. unfold escape_code_point. f_equal.
  apply list_fmap_ext. intros i o Ho.
  destruct (unescaped o) eqn:Hu; [|done]. exfalso.
  destruct (decide (cp < 128)) as [Hlt|Hge].
  - rewrite utf8_ascii in Ho by done.
    apply list_lookup_singleton_Some in Ho as [_ ->]. congruence.
  - apply Is_true_true_2, unescaped_ascii in Hu.
    assert (128 ≤ cp) as Hcp' by lia.
    apply utf8_high in Hcp'. rewrite Forall_lookup in Hcp'.
    specialize (Hcp' _ _ Ho). lia.
Qed.

Lemma octets_cons {B} (f : N → list B) cp cps :
  mjoin (f <$> mjoin (utf8 <$> cp :: cps))
  = mjoin (f <$> utf8 cp) ++ mjoin (f <$> mjoin (utf8 <$> cps)).
Proof.
  rewrite fmap_cons.
  change (mjoin (utf8 cp :: (utf8 <$> cps)))
    with (utf8 cp ++ mjoin (utf8 <$> cps)).
  by rewrite fmap_app, join_app.
Qed.

Lemma percent_encode_unescaped c rest :
  unescaped c → percent_encode (c :: rest) = c :: percent_encode rest.
Proof.
  intros Hc. unfold percent_encode. simpl.
  destruct (unescaped_not_surrogate c Hc) as [-> _].
  rewrite octets_cons, utf8_ascii by (by apply unescaped_ascii).
  simpl. by rewrite (Is_true_true_1 _ Hc).
Qed.

Lemma percent_encode_unit c rest :
  unescaped c = false → is_lead c = false →
  percent_encode (c :: rest) = escape_code_point c ++ percent_encode rest.
Proof.
  intros Hc Hl. unfold percent_encode. simpl. rewrite Hl.
  by rewrite octets_cons, escape_code_point_octets.
Qed.

Lemma percent_encode_pair c d rest :
  is_lead c → is_trail d →
  percent_encode (c :: d :: rest)
  = escape_code_point (pair_code_point c d) ++ percent_encode rest.
Proof.
  intros Hc Hd. unfold percent_encode. simpl.
  rewrite (Is_true_true_1 _ Hc), (Is_true_true_1 _ Hd).
  rewrite octets_cons, escape_code_point_octets; [done|].
  destruct (unescaped _) eqn:Hu; [|done].
  apply Is_true_true_2, unescaped_ascii in Hu.
  unfold pair_code_point in Hu. lia.
Qed.

Lemma encodeURIComponent_bounded n s :
  (length s ≤ n)%nat → well_formed s →
  encodeURIComponent s = Ok (percent_encode s).
Proof.
  revert s. induction n as [|n IH]; intros s Hlen Hwf.
  { destruct s; [done|simpl in Hlen; lia]. }
  destruct s as [|c rest]; [done|]. simpl in Hlen, Hwf |- *.
  destruct (unescaped c) eqn:Hu.
  - apply Is_true_true_2 in Hu.
    destruct (unescaped_not_surrogate c Hu) as [Hl Ht].
    rewrite Hl, Ht in Hwf. simpl in Hwf.
    rewrite IH by (done || lia). by rewrite percent_encode_unescaped.
  - destruct (is_lead c) eqn:Hl.
    + destruct rest as [|d rest']; [done|].
      apply andb_True in Hwf as [Hd Hwf].
      rewrite (Is_true_true_1 _ Hd). simpl in Hlen.
      rewrite IH by (done || lia).
      rewrite percent_encode_pair; [done| by apply Is_true_true_2 |done].
    + apply andb_True in Hwf as [Ht Hwf].
      apply negb_True, Is_true_false_1 in Ht. rewrite Ht.
      rewrite IH by (done || lia). by rewrite percent_encode_unit.
Qed.

Lemma encodeURIComponent_well_formed s :
  well_formed s → encodeURIComponent s = Ok (percent_encode s).
Proof. by apply (encodeURIComponent_bounded (length s)). Qed.

End Links.

(** ** Chunks *)

Section Chunks.

Context {A : Type}.
Implicit Types l : list A.

Lemma chunks_upto_enough fuel fuel' b l :
  (1 ≤ b)%nat → (length l ≤ fuel)%nat → (length l ≤ fuel')%nat →
  chunks_upto fuel b l = chunks_upto fuel' b l.
Proof.
  intros Hb. revert fuel' l.
  induction fuel as [|fuel IH]; intros fuel' l Hf Hf'.
  - destruct l; [|simpl in Hf; lia]. by destruct fuel'.
  - destruct l as [|x l]; [by destruct fuel'|].
    destruct fuel' as [|fuel']; [simpl in Hf'; lia|].
    simpl. f_equal. apply IH; rewrite length_drop; simpl in *; lia.
Qed.

Lemma chunks_nil b : chunks b (@nil A) = [].
Proof. done. Qed.

Lemma chunks_step b l :
  (1 ≤ b)%nat → l ≠ [] → chunks b l = take b l :: chunks b (drop b l).
Proof.
  intros Hb Hl. unfold chunks. destruct l as [|x l]; [done|].
  simpl. f_equal. apply chunks_upto_enough; [done| |done].
  rewrite length_drop. simpl. lia.
Qed.

(** Induction along the chunks of a list. *)
Lemma chunks_ind b (Hb : (1 ≤ b)%nat) (P : list A → Prop) :
  P [] → (∀ l, l ≠ [] → P (drop b l) → P l) → ∀ l, P l.
Proof.
  intros Hnil Hstep l.
  induction l as [l IH] using (induction_ltof1 _ length). unfold ltof in IH.
  destruct (decide (l = [])) as [->|Hne]; [done|].
  apply Hstep; [done|]. apply IH. rewrite length_drop.
  destruct l; [done|simpl; lia].
Qed.

Lemma chunks_concat b l : (1 ≤ b)%nat → concat (chunks b l) = l.
Proof.
  intros Hb. induction l as [|l Hne IH] using (chunks_ind b Hb); [done|].
  rewrite chunks_step by done. simpl. rewrite IH. apply take_drop.
Qed.

Lemma chunks_nonempty b l :
  (1 ≤ b)%nat → Forall (λ g, g ≠ []) (chunks b l).
Proof.
  intros Hb. induction l as [|l Hne IH] using (chunks_ind b Hb); [constructor|].
  rewrite chunks_step by done. constructor; [|done].
  destruct l; [done|]. by destruct b; [lia|].
Qed.

Lemma chunks_lookup b l i g :
  (1 ≤ b)%nat → chunks b l !! i = Some g → g = take b (drop (i * b) l).
Proof.
  intros Hb. revert i.
  induction l as [|l Hne IH] using (chunks_ind b Hb); [done|].
  intros i. rewrite chunks_step by done. destruct i as [|i]; simpl.
  - by intros [= <-].
  - intros Hg%IH. by rewrite <- drop_drop.
Qed.

Lemma chunks_length b l :
  (1 ≤ b)%nat → length (chunks b l) = ceil_div (length l) b.
Proof.
  intros Hb. unfold ceil_div.
  induction l as [|l Hne IH] using (chunks_ind b Hb).
  - simpl. symmetry. apply Nat.div_small. lia.
  - rewrite chunks_step by done. simpl. rewrite IH, length_drop.
    assert (1 ≤ length l)%nat as Hl by (destruct l; [done|simpl; lia]).
    destruct (decide (length l ≤ b)%nat) as [Hle|Hgt].
    + replace (length l - b + b - 1)%nat with (b - 1)%nat by lia.
      rewrite Nat.div_small by lia.
      replace (length l + b - 1)%nat with ((length l - 1) + 1 * b)%nat by lia.
      rewrite Nat.div_add by lia. rewrite Nat.div_small by lia. done.
    + replace (length l + b - 1)%nat
        with ((length l - b + b - 1) + 1 * b)%nat by lia.
      rewrite Nat.div_add by lia. lia.
Qed.

End Chunks.

(** ** The batching loop *)

Section Batching.

Variables (batchSize delayMs : Z) (message : jsstring).

(** The slice of one call, for a cursor inside the array. *)
Lemma slice_batch {A} (l : list A) (i : nat) :
  (0 ≤ batchSize)%Z →
  slice l (Z.of_nat i) (Z.of_nat i + batchSize)
  = take (Z.to_nat batchSize) (drop i l).
Proof.
  intros Hb. unfold slice.
  rewrite (proj2 (Z.ltb_ge _ _)) by lia.
  rewrite (proj2 (Z.ltb_ge _ _)) by lia.
  destruct (decide (i ≤ length l)%nat) as [Hle|Hgt].
  - rewrite (Z.min_l (Z.of_nat i)) by lia. rewrite Nat2Z.id.
    destruct (decide (Z.of_nat i + batchSize ≤ Z.of_nat (length l))%Z).
    + rewrite Z.min_l by lia. f_equal. lia.
    + rewrite Z.min_r by lia.
      rewrite (take_ge (drop i l) (Z.to_nat batchSize))
        by (rewrite length_drop; lia).
      apply take_ge. rewrite length_drop. lia.
  - rewrite !Z.min_r by lia. rewrite Z.sub_diag. simpl.
    by rewrite (drop_ge l i), take_nil by lia.
Qed.

Lemma for_of_opens text (batch : list Recipient) :
  may_open message text →
  for_of batch (λ r,
    url ← lift (makeWhatsAppLink (phone r) message); emit (WindowOpen url))
  = (WindowOpen <$> (link_for text <$> batch), Ok tt).
Proof.
  intros Henc. induction batch as [|r batch IH]; [done|].
  change (for_of (r :: batch) ?body) with (body r ;; for_of batch body).
  rewrite IH. unfold makeWhatsAppLink. rewrite Henc. done.
Qed.

(** One call at a cursor inside the array: it opens the links of the next
    [batchSize] recipients, advances the cursor and sets a timer exactly
    when recipients remain. *)
Lemma openNextBatch_call text toOpen (i : nat) :
  (0 ≤ batchSize)%Z → may_open message text →
  let b := Z.to_nat batchSize in
  let more := bool_decide (i + b < length toOpen)%nat in
  openNextBatch batchSize delayMs message toOpen (Z.of_nat i)
  = (call_trace delayMs more (link_for text <$> take b (drop i toOpen)),
     Ok (Z.of_nat (i + b), more)).
Proof.
  intros Hb Henc b more. unfold openNextBatch, call_trace.
  rewrite slice_batch by done. unfold mbind, M_bind.
  rewrite (for_of_opens text) by done. simpl.
  replace (Z.of_nat i + batchSize)%Z with (Z.of_nat (i + b)) by lia.
  subst more. case_bool_decide as Hlt.
  - rewrite (proj2 (Z.ltb_lt _ _)) by lia. reflexivity.
  - rewrite (proj2 (Z.ltb_ge _ _)) by lia. reflexivity.
Qed.

Lemma opens_call_trace more g : opens (call_trace delayMs more g) = g.
Proof.
  unfold call_trace, opens. rewrite omap_app.
  replace (omap _ (if more then [SetTimeout delayMs] else [])) with (@nil jsstring)
    by (by destruct more).
  rewrite app_nil_r. induction g as [|u g IH]; [done|].
  rewrite fmap_cons.
  change (omap ?f (WindowOpen u :: ?t)) with (u :: omap f t).
  by rewrite IH.
Qed.

(** With a positive batch size, the chain of calls from a cursor inside
    the array completes, and its calls open the chunks of what remains. *)
Lemma batch_loop_chunks text toOpen fuel (i : nat) :
  (1 ≤ batchSize)%Z → may_open message text →
  (i < length toOpen)%nat → (length toOpen - i ≤ fuel)%nat →
  ∃ log,
    batch_loop batchSize delayMs message fuel toOpen (Z.of_nat i)
    = (log, Completed)
    ∧ opens <$> log
      = chunks (Z.to_nat batchSize) (link_for text <$> drop i toOpen).
Proof.
  intros Hb Henc. revert i.
  induction fuel as [|fuel IH]; intros i Hi Hfuel; [lia|].
  simpl. rewrite (openNextBatch_call text) by (done || lia).
  assert (drop i toOpen ≠ []) as Hne.
  { intros Heq%(f_equal length). rewrite length_drop in Heq. simpl in Heq. lia. }
  rewrite chunks_step by (lia || by destruct (drop i toOpen)).
  rewrite <- fmap_drop, drop_drop, <- fmap_take.
  case_bool_decide as Hmore.
  - destruct (IH (i + Z.to_nat batchSize)%nat) as (log & -> & Hlog); [lia..|].
    eexists. split; [done|].
    rewrite fmap_cons, Hlog. f_equal.
    apply (opens_call_trace true).
  - eexists. split; [done|].
    rewrite (drop_ge toOpen (i + Z.to_nat batchSize)) by lia.
    rewrite fmap_nil, chunks_nil.
    rewrite fmap_cons. f_equal. apply (opens_call_trace false).
Qed.

(** With batch size 0 the cursor stays at 0 and every call sets a timer
    again. *)
Lemma batch_loop_stuck toOpen fuel :
  batchSize = 0%Z → toOpen ≠ [] →
  batch_loop batchSize delayMs message fuel toOpen 0
  = (replicate fuel [SetTimeout delayMs], Pending 0).
Proof.
  intros -> Hne. induction fuel as [|fuel IH]; [done|].
  simpl. unfold openNextBatch, slice. simpl.
  rewrite Z.min_l by lia. simpl.
  destruct toOpen as [|r rs]; [done|]. simpl in *.
  change (0 + 0)%Z with 0%Z. by rewrite IH.
Qed.

End Batching.

(** ** Dispatch *)

Section DispatchFacts.

Variables (batchSize delayMs : Z) (message : jsstring).
Variable server : list jsstring → jsstring → fetch_outcome.

(** A chain that ended (completed or threw) is the same with any fuel
    that covers its calls. *)
Lemma batch_loop_fuel fuel fuel' toOpen index log st :
  batch_loop batchSize delayMs message fuel toOpen index = (log, st) →
  (∀ i, st ≠ Pending i) → (length log ≤ fuel')%nat →
  batch_loop batchSize delayMs message fuel' toOpen index = (log, st).
Proof.
  revert fuel' index log.
  induction fuel as [|fuel IH]; intros fuel' index log Hrun Hst Hfuel.
  { simpl in Hrun. injection Hrun as <- <-. by destruct (Hst index). }
  simpl in Hrun.
  destruct (openNextBatch _ _ _ _ _) as [t [[index' [|]]|e]] eqn:Hcall.
  - destruct (batch_loop _ _ _ fuel _ _) as [ts st'] eqn:Hrest.
    injection Hrun as <- <-. simpl in Hfuel.
    destruct fuel' as [|fuel']; [lia|]. simpl. rewrite Hcall.
    rewrite (IH fuel' index' ts Hrest Hst) by lia. done.
  - injection Hrun as <- <-. simpl in Hfuel.
    destruct fuel' as [|fuel']; [lia|]. simpl. by rewrite Hcall.
  - injection Hrun as <- <-. simpl in Hfuel.
    destruct fuel' as [|fuel']; [lia|]. simpl. by rewrite Hcall.
Qed.

(** A click that passes the guard in client mode is the chain of calls
    from cursor 0, its first call wrapped in the two [setSending]. *)
Lemma dispatch_batch_loop fuel recipients :
  message ≠ [] → recipients ≠ [] →
  dispatch batchSize delayMs message server fuel recipients false
  = match batch_loop batchSize delayMs message (S fuel) recipients 0 with
    | (t :: ts, st) => (([SetSending true] ++ t ++ [SetSending false]) :: ts, st)
    | ([], st) => ([], st)
    end.
Proof.
  intros Hm Hr. unfold dispatch, openLinks.
  destruct message as [|c m]; [done|]. destruct recipients as [|r rs]; [done|].
  cbn [truthy negb orb length Nat.eqb]. simpl batch_loop.
  unfold mbind, M_bind, bind, finally, emit.
  destruct (openNextBatch _ _ _ _ _) as [t [[index' [|]]|e]]; simpl.
  - destruct (batch_loop _ _ _ _ _ _) as [ts st]. by rewrite app_nil_r.
  - by rewrite app_nil_r.
  - done.
Qed.

Lemma opens_wrapped t :
  opens ([SetSending true] ++ t ++ [SetSending false]) = opens t.
Proof.
  unfold opens. rewrite !omap_app. simpl. by rewrite app_nil_r.
Qed.

(** In client mode, with a positive batch size and a message that can be
    encoded, the tasks of a click open the chunks of the links. *)
Lemma dispatch_chunks text fuel recipients :
  (1 ≤ batchSize)%Z → message ≠ [] → may_open message text →
  (length recipients ≤ fuel)%nat →
  ∃ log,
    dispatch batchSize delayMs message server fuel recipients false
    = (log, Completed)
    ∧ open_groups log
      = chunks (Z.to_nat batchSize) (link_for text <$> recipients).
Proof.
  intros Hb Hm Henc Hfuel.
  destruct (decide (recipients = [])) as [->|Hr].
  { exists [[]]. split; [|done]. unfold dispatch, openLinks.
    by rewrite orb_true_r. }
  rewrite dispatch_batch_loop by done.
  destruct (batch_loop_chunks batchSize delayMs message text recipients
              (S fuel) 0) as (log & Hrun & Hlog); [done..| | |].
  { destruct recipients; [done|simpl; lia]. }
  { lia. }
  change (Z.of_nat 0) with 0%Z in Hrun. rewrite Hrun.
  rewrite drop_0 in Hlog.
  destruct log as [|t ts].
  { symmetry in Hlog. rewrite chunks_step in Hlog; [done|lia|].
    by destruct recipients. }
  eexists. split; [done|].
  unfold open_groups. rewrite fmap_cons, opens_wrapped.
  rewrite fmap_cons in Hlog. rewrite Hlog.
  assert (1 ≤ Z.to_nat batchSize)%nat as Hb' by lia.
  generalize (chunks_nonempty (Z.to_nat batchSize)
                (link_for text <$> recipients) Hb').
  generalize (chunks (Z.to_nat batchSize) (link_for text <$> recipients)).
  induction 1 as [|g gs Hg _ IH]; [done|].
  rewrite filter_cons_True by done. by rewrite IH.
Qed.

End DispatchFacts.

(** ** Claims on links and dispatch *)

Section LinkClaims.

Lemma encodeURIComponent_throws n s :
  (length s ≤ n)%nat → well_formed s = false →
  encodeURIComponent s = Throw URIError.
Proof.
  revert s. induction n as [|n IH]; intros s Hlen Hwf.
  { destruct s; [done|simpl in Hlen; lia]. }
  destruct s as [|c rest]; [done|]. simpl in Hlen, Hwf |- *.
  destruct (unescaped c) eqn:Hu.
  - apply Is_true_true_2 in Hu.
    destruct (unescaped_not_surrogate c Hu) as [Hl Ht].
    rewrite Hl, Ht in Hwf. simpl in Hwf. by rewrite IH by (done || lia).
  - destruct (is_lead c) eqn:Hl.
    + destruct rest as [|d rest']; [done|].
      destruct (is_trail d); [|done]. simpl in Hwf, Hlen.
      by rewrite IH by (done || lia).
    + destruct (is_trail c); [done|]. simpl in Hwf.
      by rewrite IH by (done || lia).
Qed.

(** C4, counterexample: for the message made of the single unpaired
    surrogate U+D800, [encodeURIComponent] throws URIError and no link is
    constructed. *)
Lemma makeWhatsAppLink_unpaired_surrogate :
  makeWhatsAppLink (js "14155552671") [55296] = Throw URIError
  ∧ ¬ ∃ link, makeWhatsAppLink (js "14155552671") [55296] = Ok link.
Proof.
  split; [reflexivity|]. intros [link Hlink]. vm_compute in Hlink. discriminate.
Qed.

(** C4, amended: for every phone string and every message without an
    unpaired surrogate, the link is "https://wa.me/" followed by the phone,
    "?text=" and the percent-encoding of the message (the UTF-8 octets,
    unreserved characters kept, every other octet as %XX); a message with
    an unpaired surrogate makes the construction throw URIError; and
    for phone "14155552671" and message "Hi there!" the link is
    "https://wa.me/14155552671?text=Hi%20there!". *)
Theorem makeWhatsAppLink_template (phone message : jsstring) :
  (well_formed message →
   makeWhatsAppLink phone message
   = Ok (js "https://wa.me/" ++ phone ++ js "?text=" ++ percent_encode message))
  ∧ (¬ well_formed message →
     makeWhatsAppLink phone message = Throw URIError)
  ∧ makeWhatsAppLink (js "14155552671") (js "Hi there!")
    = Ok (js "https://wa.me/14155552671?text=Hi%20there!").
Proof.
  unfold makeWhatsAppLink. split_and!.
  - intros Hwf. by rewrite encodeURIComponent_well_formed.
  - intros Hwf%Is_true_false_1.
    by rewrite (encodeURIComponent_throws (length message)).
  - vm_compute. reflexivity.
Qed.

Lemma makeWhatsAppLink_template_witness :
  makeWhatsAppLink (js "5511999999999") (js "Ol" ++ [225; 32; 55357; 56832])
  = Ok (js "https://wa.me/5511999999999?text=Ol%C3%A1%20%F0%9F%98%80").
Proof.
  destruct (makeWhatsAppLink_template (js "5511999999999")
              (js "Ol" ++ [225; 32; 55357; 56832])) as [H _].
  rewrite H; [vm_compute; reflexivity | vm_compute; exact I].
Defined.

End LinkClaims.

Section DispatchClaims.

Variables (batchSize delayMs : Z) (message : jsstring).
Variable server : list jsstring → jsstring → fetch_outcome.

(** C5: in client-direct mode, for every recipient list of length n and
    every batch size b >= 1 (and a non-empty message that can be encoded),
    a click runs to completion and opens exactly the links of the
    recipients, one each and in order, in ceil(n/b) groups; group i holds
    the b links from position i*b on, fewer in the last group when b does
    not divide n; with 25 recipients and batch size 10 the groups have
    sizes 10, 10 and 5. *)
Theorem dispatch_in_batches (text : jsstring) (recipients : list Recipient)
    (fuel : nat) :
  (1 ≤ batchSize)%Z → message ≠ [] → may_open message text →
  (length recipients ≤ fuel)%nat →
  ∃ log,
    dispatch batchSize delayMs message server fuel recipients false
    = (log, Completed)
    ∧ let groups := open_groups log in
      let b := Z.to_nat batchSize in
      let n := length recipients in
      let links := link_for text <$> recipients in
      concat groups = links
      ∧ length groups = ceil_div n b
      ∧ (∀ i g, groups !! i = Some g →
                g = take b (drop (i * b) links)
                ∧ length g = (b `min` (n - i * b))%nat)
      ∧ (n = 25%nat → batchSize = 10%Z →
         length <$> groups = [10; 10; 5]%nat).
Proof.
  intros Hb Hm Henc Hfuel.
  destruct (dispatch_chunks batchSize delayMs message server text fuel
              recipients Hb Hm Henc Hfuel) as (log & Hrun & Hgroups).
  exists log. split; [done|]. simpl. rewrite Hgroups.
  assert (1 ≤ Z.to_nat batchSize)%nat as Hb' by lia.
  assert (∀ i g,
    chunks (Z.to_nat batchSize) (link_for text <$> recipients) !! i = Some g →
    g = take (Z.to_nat batchSize)
          (drop (i * Z.to_nat batchSize) (link_for text <$> recipients))
    ∧ length g
      = (Z.to_nat batchSize `min` (length recipients - i * Z.to_nat batchSize))%nat)
    as Hlookup.
  { intros i g Hg%chunks_lookup; [|done]. split; [done|].
    by rewrite Hg, length_take, length_drop, length_fmap. }
  split_and!.
  - by apply chunks_concat.
  - by rewrite chunks_length, length_fmap.
  - done.
  - intros Hn ->.
    pose proof (chunks_length 10 (link_for text <$> recipients) Hb') as Hlen.
    rewrite length_fmap, Hn in Hlen. change (ceil_div 25 10) with 3%nat in Hlen.
    destruct (chunks _ _) as [|g0 [|g1 [|g2 [|g3 gs]]]]; try done.
    destruct (Hlookup 0%nat g0 eq_refl) as [_ H0].
    destruct (Hlookup 1%nat g1 eq_refl) as [_ H1].
    destruct (Hlookup 2%nat g2 eq_refl) as [_ H2].
    rewrite Hn in H0, H1, H2. simpl. by rewrite H0, H1, H2.
Qed.

(** C8: with an empty message or no recipient, in either mode,
    [openLinks] returns at once: its trace is empty (no [setSending], no
    [window.open], no [fetch]), no timer is set, and the [sending] flag
    keeps its value. *)
Theorem openLinks_refused (recipients : list Recipient) (useApi : bool)
    (fuel : nat) (sending : bool) :
  message = [] ∨ recipients = [] →
  openLinks batchSize delayMs message server recipients useApi = ([], Ok None)
  ∧ dispatch batchSize delayMs message server fuel recipients useApi
    = ([[]], Completed)
  ∧ let effects :=
      concat (dispatch batchSize delayMs message server fuel recipients useApi).1
    in filter (λ e, is_open e) effects = []
       ∧ filter (λ e, is_api_call e) effects = []
       ∧ foldl apply_effect sending effects = sending.
Proof.
  intros Hguard.
  assert (openLinks batchSize delayMs message server recipients useApi
          = ([], Ok None)) as Hopen.
  { unfold openLinks. destruct Hguard as [-> | ->]; [done|].
    by rewrite orb_true_r. }
  unfold dispatch. rewrite Hopen. done.
Qed.

(** C9: for every non-empty recipient list, the chain of calls of
    [openNextBatch] started at cursor 0 completes after exactly ceil(n/b)
    calls when the batch size b is at least 1 (the message being
    encodable); with batch size 0 every call leaves the cursor at 0 and
    sets the timer again, so that the chain never completes. *)
Theorem batch_loop_termination (toOpen : list Recipient) :
  toOpen ≠ [] →
  (∀ text, (1 ≤ batchSize)%Z → may_open message text →
     ∃ log,
       length log = ceil_div (length toOpen) (Z.to_nat batchSize)
       ∧ ∀ fuel, (length log ≤ fuel)%nat →
           batch_loop batchSize delayMs message fuel toOpen 0
           = (log, Completed))
  ∧ (batchSize = 0%Z →
     ∀ fuel, ∃ log,
       batch_loop batchSize delayMs message fuel toOpen 0 = (log, Pending 0)
       ∧ length log = fuel
       ∧ filter (λ e, is_open e) (concat log) = []).
Proof.
  intros Hne. split.
  - intros text Hb Henc.
    destruct (batch_loop_chunks batchSize delayMs message text toOpen
                (length toOpen) 0) as (log & Hrun & Hlog); [done..| | |].
    { destruct toOpen; [done|simpl; lia]. }
    { lia. }
    exists log. split.
    + rewrite <- (length_fmap opens), Hlog, drop_0, chunks_length by lia.
      by rewrite length_fmap.
    + intros fuel Hfuel.
      by apply (batch_loop_fuel _ _ _ (length toOpen) fuel _ _ _ _ Hrun).
  - intros Hb fuel. rewrite batch_loop_stuck by done.
    eexists. split; [done|]. split; [apply length_replicate|].
    induction fuel as [|fuel IH]; [done|]. simpl. done.
Qed.

End DispatchClaims.

Lemma dispatch_in_batches_witness :
  ∃ log,
    dispatch 10 1200 (js "Hi there!") unreachable 25 (sample_recipients 25) false
    = (log, Completed)
    ∧ length <$> open_groups log = [10; 10; 5]%nat.
Proof.
  destruct (dispatch_in_batches 10 1200 (js "Hi there!") unreachable
              (js "Hi%20there!") (sample_recipients 25) 25)
    as (log & Hrun & _ & _ & _ & Hsizes).
  - lia.
  - vm_compute. discriminate.
  - vm_compute. reflexivity.
  - vm_compute. lia.
  - exists log. split; [exact Hrun|]. apply Hsizes; reflexivity.
Defined.

Lemma openLinks_refused_witness :
  openLinks 10 1200 [] unreachable (sample_recipients 3) true = ([], Ok None)
  ∧ dispatch 10 1200 [] unreachable 7 (sample_recipients 3) true
    = ([[]], Completed).
Proof.
  destruct (openLinks_refused 10 1200 [] unreachable (sample_recipients 3)
              true 7 false) as (Hopen & Hrun & _).
  - left. reflexivity.
  - split; [exact Hopen|exact Hrun].
Defined.

Lemma batch_loop_termination_witness :
  (∃ log,
     length log = 2%nat
     ∧ batch_loop 2 1200 (js "Hi there!") 2 (sample_recipients 3) 0
       = (log, Completed))
  ∧ (∃ log,
       batch_loop 0 1200 (js "Hi there!") 1000 (sample_recipients 3) 0
       = (log, Pending 0)
       ∧ length log = 1000%nat).
Proof.
  destruct (batch_loop_termination 2 1200 (js "Hi there!") (sample_recipients 3))
    as [Hpos _]; [vm_compute; discriminate|].
  destruct (batch_loop_termination 0 1200 (js "Hi there!") (sample_recipients 3))
    as [_ Hzero]; [vm_compute; discriminate|].
  split.
  - destruct (Hpos (js "Hi%20there!")) as (log & Hlen & Hrun);
      [lia | vm_compute; reflexivity |].
    exists log. split; [exact Hlen|]. apply Hrun. rewrite Hlen. vm_compute. lia.
  - destruct (Hzero eq_refl 1000%nat) as (log & Hrun & Hlen & _).
    exists log. split; [exact Hrun|exact Hlen].
Defined.

(** ** The send route *)

Section RouteClaims.

Context {world : Type}.
Variable graph : world → outbound → fetch_outcome * world.
Variable cfg : env.

Lemma send_one_record message x w :
  let r := (send_one graph cfg message x w).1 in
  to r = x
  ∧ ok r = replied_ok (graph w (request_for cfg x message)).1
  ∧ (ok r = false ↔ is_Some (error r))
  ∧ (send_one graph cfg message x w).2 = (graph w (request_for cfg x message)).2.
Proof.
  unfold send_one. destruct (graph w _) as [[| |[|] reply] w']; simpl;
    split_and!; try done; try (split; [eauto|done]).
Qed.

(** The loop makes one call per recipient, in order, each in the world
    left by the previous one, and pushes one record per call. *)
Lemma send_loop_sequential message xs results0 calls0 w :
  ∃ results calls w',
    foldl (send_step graph cfg message) (results0, calls0, w) xs
    = (results0 ++ results, calls0 ++ calls, w')
    ∧ sequential_run graph (λ x, request_for cfg x message) w xs results calls w'.
Proof.
  revert results0 calls0 w.
  induction xs as [|x xs IH]; intros results0 calls0 w.
  - exists [], [], w. rewrite !app_nil_r. split; [done|constructor].
  - destruct (send_one_record message x w) as (Hto & Hok & Herr & Hw).
    destruct (send_one graph cfg message x w) as [r w1] eqn:Hone.
    simpl in Hto, Hok, Herr, Hw. cbn [foldl].
    replace (send_step graph cfg message (results0, calls0, w) x)
      with (results0 ++ [r], calls0 ++ [request_for cfg x message], w1)
      by (unfold send_step; by rewrite Hone).
    destruct (IH (results0 ++ [r]) (calls0 ++ [request_for cfg x message]) w1)
      as (results & calls & w' & -> & Hrun).
    exists (r :: results), (request_for cfg x message :: calls), w'.
    rewrite <- !app_assoc. split; [done|].
    apply (run_next graph (λ y, request_for cfg y message)
             w x xs r results calls w'); [done..|].
    by rewrite <- Hw.
Qed.

Lemma sequential_run_records (request : json → outbound) w xs results calls w' :
  sequential_run graph request w xs results calls w' →
  to <$> results = xs ∧ calls = request <$> xs.
Proof.
  induction 1 as [|w x xs r rs calls w' Hto _ _ _ [IH1 IH2]]; [done|].
  rewrite !fmap_cons. by rewrite Hto, IH1, IH2.
Qed.

(** C6: a request whose body is not a valid payload (recipients missing,
    not an array or empty, or message empty) gets status 400 with the
    error "Invalid payload"; a valid payload gets status 501 with an error
    when a credential is missing; in both cases no outbound call is made
    and the world is untouched.  In particular the body
    { "recipients": [], "message": "x" } gets 400. *)
Theorem POST_refusals (req_body : value) (w : world) :
  (valid_payload req_body = false →
   POST graph cfg req_body w
   = (mkResponse 400 (ErrorBody (js "Invalid payload")), [], w))
  ∧ (valid_payload req_body = true → configured cfg = false →
     POST graph cfg req_body w
     = (mkResponse 501 (ErrorBody (js "Server not configured for API sending")),
        [], w))
  ∧ POST graph cfg
      (Some (JObj [(js "recipients", JArr []); (js "message", JStr (js "x"))])) w
    = (mkResponse 400 (ErrorBody (js "Invalid payload")), [], w).
Proof.
  unfold POST, valid_payload, configured, or_else. split_and!.
  - intros Hv.
    destruct (opt_get req_body (js "recipients"))
      as [[|b|num|s|[|x xs]|fields]|]; try done.
    + by destruct b.
    + by destruct num.
    + by destruct s.
    + destruct (opt_get req_body (js "message")) as [m|]; [|done].
      rewrite Hv. done.
  - intros Hv Hc.
    destruct (opt_get req_body (js "recipients")) as [[| | | |[|x xs]|]|];
      try done.
    destruct (opt_get req_body (js "message")) as [m|]; [|done].
    rewrite !Hv. simpl.
    destruct (ACCESS_TOKEN cfg) as [[|? ?]|]; try done.
    destruct (PHONE_NUMBER_ID cfg) as [[|? ?]|]; done.
  - done.
Qed.

(** C7: for a valid payload and both credentials set, the handler answers
    200; its results are those of a strictly sequential run over the
    recipients: one outbound call and one record per recipient, in input
    order, each call made after the previous one; a failed call gives a
    record with ok = false and an error, and the run goes on; the count is
    the number of records with ok = true. *)
Theorem POST_sequential (req_body : value) (w : world) :
  valid_payload req_body = true → configured cfg = true →
  ∃ results calls w',
    POST graph cfg req_body w
    = (mkResponse 200
         (SendBody (length (filter (λ r, ok r) results)) results),
       calls, w')
    ∧ sequential_run graph
        (λ x, request_for cfg x (payload_message req_body))
        w (payload_recipients req_body) results calls w'
    ∧ length results = length (payload_recipients req_body)
    ∧ to <$> results = payload_recipients req_body
    ∧ to_field <$> calls = payload_recipients req_body.
Proof.
  intros Hv Hc.
  unfold POST, valid_payload, configured, payload_recipients, payload_message,
    or_else in *.
  destruct (opt_get req_body (js "recipients")) as [[| | | |[|x xs]|]|];
    try done.
  destruct (opt_get req_body (js "message")) as [m|]; [|done].
  rewrite !Hv.
  destruct (ACCESS_TOKEN cfg) as [[|? ?]|] eqn:Htoken; try done.
  destruct (PHONE_NUMBER_ID cfg) as [[|? ?]|] eqn:Hid; try done.
  cbn [truthy_json is_array elements negb orb length Nat.eqb truthy_var
       JsString.truthy default].
  destruct (send_loop_sequential m (x :: xs) [] [] w)
    as (results & calls & w' & Hloop & Hrun).
  rewrite Hloop. simpl.
  exists results, calls, w'.
  destruct (sequential_run_records _ _ _ _ _ _ Hrun) as [Hto Hcalls].
  split_and!; try done.
  - by rewrite <- (length_fmap to), Hto.
  - rewrite Hcalls, <- list_fmap_compose. apply list_fmap_id.
Qed.

End RouteClaims.

Lemma POST_refusals_witness :
  POST flaky_graph (mkEnv (Some (js "token")) None) sample_payload 0%nat
  = (mkResponse 501 (ErrorBody (js "Server not configured for API sending")),
     [], 0%nat).
Proof.
  destruct (POST_refusals flaky_graph (mkEnv (Some (js "token")) None)
              sample_payload 0%nat) as (_ & Hcfg & _).
  apply Hcfg; vm_compute; reflexivity.
Defined.

Lemma POST_sequential_witness :
  ∃ results calls,
    POST flaky_graph sample_env sample_payload 0%nat
    = (mkResponse 200 (SendBody 2 results), calls, 3%nat)
    ∧ ok <$> results = [true; false; true].
Proof.
  destruct (POST_sequential flaky_graph sample_env sample_payload 0%nat)
    as (results & calls & w' & Hpost & _); [vm_compute; reflexivity..|].
  exists results, calls.
  remember (POST flaky_graph sample_env sample_payload 0%nat) as answer eqn:E.
  vm_compute in E. rewrite E in Hpost |- *.
  injection Hpost as _ <- <- <-. split; reflexivity.
Defined.

(** * Further properties of the code *)

(** ** More on the parser *)

Section ParserMore.

(** X1: [normalizePhone] returns the digits of the token, in order,
    exactly when there are 8 to 15 of them, and null otherwise: every other
    character, a [+] at any position included, is dropped. *)
Theorem normalizePhone_characterised (raw : jsstring) :
  normalizePhone raw
  = if bool_decide (8 ≤ length (digit_string raw) ≤ 15)%nat
    then Some (digit_string raw) else None.
Proof.
  case_bool_decide as Hlen.
  - by apply normalizePhone_Some.
  - by apply normalizePhone_None.
Qed.

(** X2: normalizing is idempotent: an accepted value is accepted again,
    unchanged. *)
Theorem normalizePhone_idempotent (raw p : jsstring) :
  normalizePhone raw = Some p → normalizePhone p = Some p.
Proof.
  intros [-> Hlen]%normalizePhone_Some.
  apply normalizePhone_fixed; [apply digit_string_digits|done].
Qed.

Lemma normalizePhone_idempotent_witness :
  normalizePhone (js "14155552671") = Some (js "14155552671").
Proof.
  apply (normalizePhone_idempotent (js "+1 (415) 555-2671")).
  vm_compute. reflexivity.
Defined.

(** X3: two tokens with the same digits are treated alike, whatever signs,
    spaces, letters or punctuation surround the digits. *)
Theorem normalizePhone_digits_only (a b : jsstring) :
  digit_string a = digit_string b → normalizePhone a = normalizePhone b.
Proof.
  intros Hab.
  destruct (normalizePhone a) as [p|] eqn:Ha; symmetry.
  - apply normalizePhone_Some in Ha as [-> Hlen].
    apply normalizePhone_Some. by rewrite <- Hab.
  - apply normalizePhone_None in Ha. apply normalizePhone_None.
    by rewrite <- Hab.
Qed.

Lemma normalizePhone_digits_only_witness :
  normalizePhone (js "+1 (415) 555-2671") = normalizePhone (js "1.415.555.2671 x").
Proof.
  apply normalizePhone_digits_only. vm_compute. reflexivity.
Defined.

Lemma trimStart_blank s : Forall (λ c, is_ws c) s → trimStart s = [].
Proof.
  induction 1 as [|c s Hc _ IH]; [done|].
  simpl. by rewrite (Is_true_true_1 _ Hc).
Qed.

Lemma split_from_blank text tok in_run :
  Forall (λ c, is_ws c) tok →
  Forall (λ c, is_ws c || is_sep c) text →
  Forall (Forall (λ c, is_ws c)) (split_from tok in_run text).
Proof.
  intros Htok Htext. revert tok in_run Htok.
  induction Htext as [|c text Hc _ IH]; intros tok in_run Htok.
  - by constructor.
  - simpl. destruct (is_sep c) eqn:Hsep.
    + destruct in_run; [by apply IH|].
      constructor; [done|]. by apply IH.
    + apply IH. apply Forall_app. split; [done|].
      constructor; [|done]. by rewrite orb_false_r in Hc.
Qed.

(** X4: a text made of separators and white space only (the empty text
    included) gives no recipient. *)
Theorem parseNumbers_blank (text : jsstring) :
  Forall (λ c, is_ws c || is_sep c) text → parseNumbers text = [].
Proof.
  intros Htext.
  assert (candidates text = []) as Hcand; [|unfold parseNumbers; by rewrite Hcand].
  unfold candidates, split_seps.
  pose proof (split_from_blank text [] false (List.Forall_nil _) Htext) as Hblank.
  induction Hblank as [|piece pieces Hpiece _ IH]; [done|].
  rewrite fmap_cons. unfold trim at 1.
  rewrite (trimStart_blank piece) by done.
  by rewrite filter_cons_False by (by intros ?).
Qed.

Lemma parseNumbers_blank_witness :
  parseNumbers (js " ,; " ++ [LF; TAB; 160] ++ js ",") = [].
Proof.
  apply parseNumbers_blank. vm_compute.
  repeat (constructor; [exact I|]). constructor.
Defined.

End ParserMore.

Section Merging.

Implicit Types l k : list jsstring.

(** The tokens of the pieces cut from [s], [tok] being the piece under
    way. *)
Lemma pieces_restart s :
  filter (λ t, truthy t) (trim <$> split_from [] true s)
  = filter (λ t, truthy t) (trim <$> split_from [] false s).
Proof.
  destruct s as [|c s]; [done|]. simpl. destruct (is_sep c); [|done].
  rewrite fmap_cons. by rewrite filter_cons_False by (by intros ?).
Qed.

Lemma pieces_app a sep b tok in_run :
  is_sep sep → (in_run = true → tok = []) →
  filter (λ t, truthy t) (trim <$> split_from tok in_run (a ++ sep :: b))
  = filter (λ t, truthy t) (trim <$> split_from tok in_run a)
    ++ filter (λ t, truthy t) (trim <$> split_from [] true b).
Proof.
  intros Hsep. revert tok in_run.
  induction a as [|c a IH]; intros tok in_run Htok; simpl.
  - rewrite (Is_true_true_1 _ Hsep). destruct in_run.
    + by rewrite (Htok eq_refl).
    + rewrite !fmap_cons, !filter_cons. simpl.
      by destruct (decide _).
  - destruct (is_sep c).
    + destruct in_run; [by apply IH|].
      rewrite !fmap_cons, !filter_cons, IH by done.
      by destruct (decide _).
    + by apply IH.
Qed.

Lemma candidates_app a sep b :
  is_sep sep → candidates (a ++ sep :: b) = candidates a ++ candidates b.
Proof.
  intros Hsep. unfold candidates, split_seps.
  rewrite (pieces_app a sep b) by done. by rewrite pieces_restart.
Qed.

Lemma accepted_app a sep b :
  is_sep sep → accepted (a ++ sep :: b) = accepted a ++ accepted b.
Proof.
  intros Hsep. unfold accepted. by rewrite candidates_app, omap_app.
Qed.

Lemma keep_first_prefix l k :
  keep_first_occurrences l `prefix_of` keep_first_occurrences (l ++ k).
Proof.
  induction k as [|x k IH] using rev_ind.
  - by rewrite app_nil_r.
  - rewrite app_assoc, keep_first_snoc. by apply prefix_app_r.
Qed.

Lemma keep_first_absorb l k :
  (∀ x, x ∈ k → x ∈ l) →
  keep_first_occurrences (l ++ k) = keep_first_occurrences l.
Proof.
  induction k as [|x k IH] using rev_ind; intros Hk.
  - by rewrite app_nil_r.
  - rewrite app_assoc, keep_first_snoc.
    rewrite bool_decide_true by (apply elem_of_app; left; apply Hk; set_solver).
    rewrite app_nil_r. apply IH. intros y Hy. apply Hk. set_solver.
Qed.

Lemma phones_valid text : Forall valid_phone (phone <$> parseNumbers text).
Proof.
  apply Forall_forall. intros p. rewrite phones_parseNumbers.
  intros Hp. apply (proj1 (keep_first_elem_of _ _)) in Hp.
  by apply accepted_valid in Hp.
Qed.

Lemma elem_of_recipients p l : mkRecipient p ∈ mkRecipient <$> l ↔ p ∈ l.
Proof.
  rewrite list_elem_of_fmap. split.
  - by intros (q & [= ->] & Hq).
  - intros Hp. by exists p.
Qed.

(** What [handleFile] stores is read back as the values of the previous
    text followed by the values parsed from the file. *)
Lemma accepted_handleFile prev text :
  accepted (handleFile prev text)
  = accepted prev ++ (phone <$> parseNumbers text).
Proof.
  unfold handleFile. destruct prev as [|c prev].
  - simpl. by rewrite accepted_join by apply phones_valid.
  - cbn [truthy]. change ([LF] ++ ?x) with (LF :: x).
    rewrite accepted_app by done.
    by rewrite accepted_join by apply phones_valid.
Qed.

(** X5: parsing two texts joined by a separator gives the recipients of
    the first text, followed by those of the second text that are new:
    the values of both, first occurrences kept. *)
Theorem parseNumbers_append (a b : jsstring) (sep : code_unit) :
  is_sep sep →
  phone <$> parseNumbers (a ++ sep :: b)
  = keep_first_occurrences (accepted a ++ accepted b)
  ∧ parseNumbers a `prefix_of` parseNumbers (a ++ sep :: b)
  ∧ (∀ r, r ∈ parseNumbers (a ++ sep :: b) ↔
          r ∈ parseNumbers a ∨ r ∈ parseNumbers b).
Proof.
  intros Hsep. split_and!.
  - by rewrite phones_parseNumbers, accepted_app.
  - rewrite !parseNumbers_keep_first, accepted_app by done.
    destruct (keep_first_prefix (accepted a) (accepted b)) as [k ->].
    rewrite fmap_app. by apply prefix_app_r.
  - intros [p]. rewrite !parseNumbers_keep_first, accepted_app by done.
    rewrite !elem_of_recipients.
    rewrite !keep_first_elem_of. apply elem_of_app.
Qed.

Lemma parseNumbers_append_witness :
  phone <$> parseNumbers (js "447911123456" ++ COMMA :: js "+5511999999999;447911123456")
  = [js "447911123456"; js "5511999999999"].
Proof.
  destruct (parseNumbers_append (js "447911123456")
              (js "+5511999999999;447911123456") COMMA) as [H _];
    [vm_compute; exact I|].
  rewrite H. vm_compute. reflexivity.
Defined.

(** X6: an upload never loses or reorders what was there: the recipients
    of the previous text stay, in place, at the head of the list; every
    recipient of the file is in the list, and the list holds nothing
    else. *)
Theorem handleFile_keeps_recipients (prev text : jsstring) :
  parseNumbers prev `prefix_of` parseNumbers (handleFile prev text)
  ∧ (∀ r, r ∈ parseNumbers (handleFile prev text) ↔
          r ∈ parseNumbers prev ∨ r ∈ parseNumbers text).
Proof.
  split.
  - rewrite !parseNumbers_keep_first, accepted_handleFile.
    destruct (keep_first_prefix (accepted prev) (phone <$> parseNumbers text))
      as [k ->].
    rewrite fmap_app. by apply prefix_app_r.
  - intros [p]. rewrite (parseNumbers_keep_first (handleFile _ _)).
    rewrite accepted_handleFile, phones_parseNumbers.
    rewrite !parseNumbers_keep_first.
    rewrite !elem_of_recipients.
    rewrite !keep_first_elem_of, elem_of_app.
    by rewrite keep_first_elem_of.
Qed.

(** X7: uploading the same file a second time changes nothing in the
    parsed recipients. *)
Theorem handleFile_twice (prev text : jsstring) :
  parseNumbers (handleFile (handleFile prev text) text)
  = parseNumbers (handleFile prev text).
Proof.
  rewrite !(parseNumbers_keep_first (handleFile _ _)).
  rewrite (accepted_handleFile (handleFile prev text)).
  rewrite keep_first_absorb; [done|].
  intros p Hp. rewrite accepted_handleFile. apply elem_of_app. by right.
Qed.

End Merging.

(** ** More on the links *)

Section LinksMore.

Lemma Ok_result {A} (a b : A) : Ok a = Ok b → a = b.
Proof. congruence. Qed.

Lemma hex_digit_unescaped n : n < 16 → unescaped (hex_digit n).
Proof.
  intros Hn. unfold hex_digit, unescaped, is_alpha, is_digit.
  destruct (N.ltb_spec n 10).
  - apply orb_True. left. apply orb_True. right.
    apply andb_True. split; apply Is_true_true_2, N.leb_le; lia.
  - apply orb_True. left. apply orb_True. left. apply orb_True. left.
    apply andb_True. split; apply Is_true_true_2, N.leb_le; lia.
Qed.

Lemma escape_octet_safe o : o < 256 → Forall (λ c, url_safe c) (escape_octet o).
Proof.
  intros Ho. unfold escape_octet, url_safe.
  repeat (constructor 2; [|]); [..|constructor 1].
  - done.
  - apply orb_True. left. apply hex_digit_unescaped.
    apply N.Div0.div_lt_upper_bound. lia.
  - apply orb_True. left. apply hex_digit_unescaped. by apply N.mod_lt.
Qed.

Lemma utf8_octets cp : cp < 1114112 → Forall (λ o, o < 256) (utf8 cp).
Proof.
  intros Hcp. unfold utf8.
  assert (∀ x, x mod 64 < 64) as Hmod by (intros; by apply N.mod_lt).
  assert (∀ k x, x < k * 64 → x / 64 < k) as Hdiv64
    by (intros; apply N.Div0.div_lt_upper_bound; lia).
  assert (∀ k x, x < k * 4096 → x / 4096 < k) as Hdiv4096
    by (intros; apply N.Div0.div_lt_upper_bound; lia).
  assert (∀ k x, x < k * 262144 → x / 262144 < k) as Hdiv262144
    by (intros; apply N.Div0.div_lt_upper_bound; lia).
  destruct (N.ltb_spec cp 128); [|destruct (N.ltb_spec cp 2048);
    [|destruct (N.ltb_spec cp 65536)]].
  - repeat (constructor 2; [lia|]). constructor 1.
  - pose proof (Hmod cp). pose proof (Hdiv64 32 cp).
    repeat (constructor 2; [lia|]). constructor 1.
  - pose proof (Hmod cp). pose proof (Hmod (cp / 64)).
    pose proof (Hdiv4096 16 cp).
    repeat (constructor 2; [lia|]). constructor 1.
  - pose proof (Hmod cp). pose proof (Hmod (cp / 64)).
    pose proof (Hmod (cp / 4096)). pose proof (Hdiv262144 5 cp).
    repeat (constructor 2; [lia|]). constructor 1.
Qed.

Lemma escape_code_point_safe cp :
  cp < 1114112 → Forall (λ c, url_safe c) (escape_code_point cp).
Proof.
  intros Hcp. unfold escape_code_point. apply Forall_join, Forall_fmap.
  eapply Forall_impl; [by apply utf8_octets|]. intros o. apply escape_octet_safe.
Qed.

Lemma escape_code_point_length cp : (3 ≤ length (escape_code_point cp))%nat.
Proof.
  unfold escape_code_point, utf8. repeat case_match; simpl; lia.
Qed.

Lemma pair_code_point_bound c d :
  is_lead c → is_trail d → pair_code_point c d < 1114112.
Proof.
  unfold is_lead, is_trail, pair_code_point.
  rewrite !andb_True, !Is_true_true, !N.leb_le. lia.
Qed.

Lemma encodeURIComponent_safe n s t :
  (length s ≤ n)%nat → utf16 s → encodeURIComponent s = Ok t →
  Forall (λ c, url_safe c) t.
Proof.
  revert s t. induction n as [|n IH]; intros s t Hlen Hs Ht.
  { destruct s; [|simpl in Hlen; lia]. injection Ht as <-. constructor. }
  destruct s as [|c rest]; [injection Ht as <-; constructor|].
  apply Forall_cons in Hs as [Hc Hrest]. simpl in Hlen, Ht.
  destruct (unescaped c) eqn:Hu.
  - destruct (encodeURIComponent rest) as [r|] eqn:Hr; [|done].
    injection Ht as <-. constructor.
    + unfold url_safe. by rewrite Hu.
    + apply (IH rest); [lia|done..].
  - destruct (is_lead c) eqn:Hl.
    + destruct rest as [|d rest']; [done|].
      destruct (is_trail d) eqn:Hd; [|done].
      destruct (encodeURIComponent rest') as [r|] eqn:Hr; [|done].
      injection Ht as <-. apply Forall_cons in Hrest as [_ Hrest].
      apply Forall_app. split.
      * apply escape_code_point_safe, pair_code_point_bound;
          by apply Is_true_true_2.
      * apply (IH rest'); [simpl in Hlen; lia|done..].
    + destruct (is_trail c); [done|].
      destruct (encodeURIComponent rest) as [r|] eqn:Hr; [|done].
      injection Ht as <-. apply Forall_app. split.
      * apply escape_code_point_safe. lia.
      * apply (IH rest); [lia|done..].
Qed.

(** X8: whenever a link is built from a message (a JavaScript string: code
    units below 2^16), the text after "?text=" is made only of the
    characters A-Z a-z 0-9 - _ . ! ~ * ' ( ) and of %: no space, newline,
    &, #, = or + of the message reaches the URL unescaped. *)
Theorem makeWhatsAppLink_query_safe (phone message link : jsstring) :
  utf16 message → makeWhatsAppLink phone message = Ok link →
  ∃ text,
    link = js "https://wa.me/" ++ phone ++ js "?text=" ++ text
    ∧ Forall (λ c, url_safe c) text
    ∧ Forall (λ c, (c ∉ js " &#=+") ∧ c ≠ LF) text.
Proof.
  intros Hm. unfold makeWhatsAppLink.
  destruct (encodeURIComponent message) as [text|] eqn:Ht; [|done].
  intros [= <-]. exists text. split; [done|].
  pose proof (encodeURIComponent_safe _ _ _ (Nat.le_refl _) Hm Ht) as Hsafe.
  split; [done|].
  eapply Forall_impl; [exact Hsafe|]. intros c Hc.
  unfold url_safe, unescaped, is_alpha, is_digit, is_mark, PERCENT in Hc.
  rewrite !orb_True, !andb_True, !Is_true_true, !N.leb_le, !N.eqb_eq in Hc.
  split.
  - intros Hin. vm_compute in Hin.
    repeat (apply elem_of_cons in Hin as [->|Hin]; [lia|]).
    by apply elem_of_nil in Hin.
  - unfold LF. lia.
Qed.

Lemma makeWhatsAppLink_query_safe_witness :
  ∃ text,
    js "https://wa.me/14155552671?text=a%20%26%20b%3D1" 
    = js "https://wa.me/" ++ js "14155552671" ++ js "?text=" ++ text
    ∧ Forall (λ c, url_safe c) text
    ∧ Forall (λ c, (c ∉ js " &#=+") ∧ c ≠ LF) text.
Proof.
  apply (makeWhatsAppLink_query_safe (js "14155552671") (js "a & b=1")).
  - vm_compute. repeat (constructor; [reflexivity|]). constructor.
  - vm_compute. reflexivity.
Defined.

Lemma encodeURIComponent_app_bounded n a b ta tb :
  (length a ≤ n)%nat →
  encodeURIComponent a = Ok ta → encodeURIComponent b = Ok tb →
  encodeURIComponent (a ++ b) = Ok (ta ++ tb).
Proof.
  revert a ta. induction n as [|n IH]; intros a ta Hlen Ha Hb.
  { destruct a; [|simpl in Hlen; lia]. by injection Ha as <-. }
  destruct a as [|c rest]; [by injection Ha as <-|].
  simpl in Hlen, Ha |- *.
  destruct (unescaped c).
  - destruct (encodeURIComponent rest) as [r|] eqn:Hr; [|done].
    injection Ha as <-. by rewrite (IH rest r) by (done || lia).
  - destruct (is_lead c).
    + destruct rest as [|d rest']; [done|]. simpl.
      destruct (is_trail d); [|done].
      destruct (encodeURIComponent rest') as [r|] eqn:Hr; [|done].
      injection Ha as <-. simpl in Hlen.
      rewrite (IH rest' r) by (done || lia). by rewrite app_assoc.
    + destruct (is_trail c); [done|].
      destruct (encodeURIComponent rest) as [r|] eqn:Hr; [|done].
      injection Ha as <-. rewrite (IH rest r) by (done || lia).
      by rewrite app_assoc.
Qed.

(** X9: links compose with concatenation: when a link is built for a
    message and a further text can be encoded, the link for the message
    followed by that text is the first link followed by the encoding of the
    text. *)
Theorem makeWhatsAppLink_app (phone a b link tb : jsstring) :
  makeWhatsAppLink phone a = Ok link → encodeURIComponent b = Ok tb →
  makeWhatsAppLink phone (a ++ b) = Ok (link ++ tb).
Proof.
  unfold makeWhatsAppLink.
  destruct (encodeURIComponent a) as [ta|] eqn:Ha; [|done].
  intros Hlink Hb. apply Ok_result in Hlink. subst link.
  rewrite (encodeURIComponent_app_bounded (length a) a b ta tb) by done.
  by rewrite <- !app_assoc.
Qed.

Lemma makeWhatsAppLink_app_witness :
  makeWhatsAppLink (js "14155552671") (js "Hi " ++ [55357; 56832])
  = Ok (js "https://wa.me/14155552671?text=Hi%20" ++ js "%F0%9F%98%80").
Proof.
  apply makeWhatsAppLink_app; vm_compute; reflexivity.
Defined.

Lemma encodeURIComponent_grows n s t :
  (length s ≤ n)%nat → encodeURIComponent s = Ok t →
  (Forall (λ c, unescaped c) s ∧ t = s) ∨ (length s < length t)%nat.
Proof.
  revert s t. induction n as [|n IH]; intros s t Hlen Ht.
  { destruct s; [|simpl in Hlen; lia]. injection Ht as <-. by left. }
  destruct s as [|c rest]; [injection Ht as <-; by left|].
  simpl in Hlen, Ht.
  destruct (unescaped c) eqn:Hu.
  - destruct (encodeURIComponent rest) as [r|] eqn:Hr; [|done].
    injection Ht as <-.
    destruct (IH rest r) as [[Hall ->]|Hlt]; [lia|done| |].
    + left. split; [|done]. constructor; [by rewrite Hu|done].
    + right. simpl. lia.
  - right. destruct (is_lead c).
    + destruct rest as [|d rest']; [done|].
      destruct (is_trail d); [|done].
      destruct (encodeURIComponent rest') as [r|] eqn:Hr; [|done].
      injection Ht as <-. simpl in Hlen.
      pose proof (escape_code_point_length (pair_code_point c d)).
      rewrite length_app. simpl.
      destruct (IH rest' r) as [[_ ->]|Hlt]; [lia|done|lia|lia].
    + destruct (is_trail c); [done|].
      destruct (encodeURIComponent rest) as [r|] eqn:Hr; [|done].
      injection Ht as <-.
      pose proof (escape_code_point_length c).
      rewrite length_app. simpl.
      destruct (IH rest r) as [[_ ->]|Hlt]; [lia|done|lia|lia].
Qed.

Lemma encodeURIComponent_length s t :
  encodeURIComponent s = Ok t →
  (length s ≤ length t)%nat ∧ (t = s ↔ Forall (λ c, unescaped c) s).
Proof.
  intros Ht.
  destruct (encodeURIComponent_grows _ s t (Nat.le_refl _) Ht)
    as [[Hall ->]|Hlt].
  - split; [done|]. by split.
  - split; [lia|]. split.
    + intros ->. lia.
    + intros Hall. exfalso. revert t Ht Hlt.
      induction Hall as [|c s Hc _ IH]; intros t Ht Hlt.
      * apply Ok_result in Ht. subst t. simpl in Hlt. lia.
      * simpl in Ht. rewrite (Is_true_true_1 _ Hc) in Ht.
        destruct (encodeURIComponent s) as [r|] eqn:Hr; [|done].
        apply Ok_result in Ht. subst t. apply (IH r); [done|].
        simpl in Hlt. lia.
Qed.

(** X10: the link is never shorter than the literal template filled with
    the message, and it is that literal text exactly when every character
    of the message is one of A-Z a-z 0-9 - _ . ! ~ * ' ( ). *)
Theorem makeWhatsAppLink_plain (phone message link : jsstring) :
  makeWhatsAppLink phone message = Ok link →
  (length (js "https://wa.me/" ++ phone ++ js "?text=" ++ message)
   ≤ length link)%nat
  ∧ (link = js "https://wa.me/" ++ phone ++ js "?text=" ++ message
     ↔ Forall (λ c, unescaped c) message).
Proof.
  unfold makeWhatsAppLink.
  destruct (encodeURIComponent message) as [text|] eqn:Ht; [|done].
  intros Hlink. apply Ok_result in Hlink. subst link.
  destruct (encodeURIComponent_length message text Ht) as [Hlen Hid].
  split.
  - rewrite !length_app. lia.
  - rewrite <- Hid. split.
    + intros Heq. by do 3 apply app_inv_head in Heq.
    + by intros ->.
Qed.

Lemma makeWhatsAppLink_plain_witness :
  js "https://wa.me/14155552671?text=Hello!"
  = js "https://wa.me/" ++ js "14155552671" ++ js "?text=" ++ js "Hello!"
  ↔ Forall (λ c, unescaped c) (js "Hello!").
Proof.
  apply (makeWhatsAppLink_plain (js "14155552671") (js "Hello!")).
  vm_compute. reflexivity.
Defined.

End LinksMore.

(** ** Reading a link back *)

Section RoundTrip.

#[local] Ltac Zify.zify_post_hook ::= Z.to_euclidean_division_equations.

(** Decide the comparisons of the goal by arithmetic. *)
Ltac compare_units :=
  repeat match goal with
    | |- context [(?a <? ?b)] => destruct (N.ltb_spec a b); try lia
    | |- context [(?a <=? ?b)] => destruct (N.leb_spec a b); try lia
    | |- context [(?a =? ?b)] => destruct (N.eqb_spec a b); try lia
    end.

Lemma unhex_hex_digit n : n < 16 → unhex (hex_digit n) = Some n.
Proof.
  intros Hn. unfold unhex, hex_digit, is_digit.
  destruct (N.ltb_spec n 10); compare_units; simpl; f_equal; lia.
Qed.

Lemma unescaped_not_percent o : unescaped o → (o =? PERCENT) = false.
Proof.
  unfold unescaped, is_alpha, is_digit, is_mark, PERCENT.
  rewrite !orb_True, !andb_True, !Is_true_true, !N.leb_le, !N.eqb_eq.
  intros H. apply N.eqb_neq. lia.
Qed.

Lemma unescape_escaped os :
  Forall (λ o, o < 256) os →
  unescape (mjoin ((λ o, if unescaped o then [o] else escape_octet o) <$> os))
  = Some os.
Proof.
  induction 1 as [|o os Ho _ IH]; [done|].
  rewrite fmap_cons.
  change (mjoin (?x :: ?xs)) with (x ++ mjoin xs).
  destruct (unescaped o) eqn:Hu.
  - simpl. rewrite unescaped_not_percent by (by rewrite Hu).
    by rewrite IH.
  - remember (mjoin _) as tail eqn:Htail. unfold escape_octet. simpl.
    rewrite !unhex_hex_digit, IH; simpl; [f_equal; f_equal; lia|lia..].
Qed.

Lemma utf8_decode_utf8 cps :
  Forall (λ cp, cp < 1114112) cps →
  utf8_decode (mjoin (utf8 <$> cps)) = Some cps.
Proof.
  induction 1 as [|cp cps Hcp _ IH]; [done|].
  rewrite fmap_cons.
  change (mjoin (?x :: ?xs)) with (x ++ mjoin xs).
  remember (mjoin _) as tail eqn:Htail. unfold utf8.
  destruct (N.ltb_spec cp 128); [|destruct (N.ltb_spec cp 2048);
    [|destruct (N.ltb_spec cp 65536)]];
    simpl; unfold continuation; compare_units; simpl;
    rewrite IH; simpl; f_equal; f_equal; lia.
Qed.

Lemma code_points_utf16 n s :
  (length s ≤ n)%nat → well_formed s → utf16 s →
  Forall (λ cp, cp < 1114112) (code_points s)
  ∧ mjoin (utf16_units <$> code_points s) = s.
Proof.
  revert s. induction n as [|n IH]; intros s Hlen Hwf Hs.
  { destruct s; [|simpl in Hlen; lia]. by split; [constructor|]. }
  destruct s as [|c rest]; [by split; [constructor|]|].
  apply Forall_cons in Hs as [Hc Hrest]. simpl in Hlen, Hwf |- *.
  destruct (is_lead c) eqn:Hl.
  - destruct rest as [|d rest']; [done|].
    apply andb_True in Hwf as [Hd Hwf].
    rewrite (Is_true_true_1 _ Hd).
    apply Forall_cons in Hrest as [_ Hrest]. simpl in Hlen.
    destruct (IH rest') as [Hbound Hunits]; [lia|done..|].
    pose proof (pair_code_point_bound c d) as Hpair.
    rewrite Hl in Hpair. specialize (Hpair I Hd).
    split; [by constructor|].
    rewrite fmap_cons.
    change (mjoin (?x :: ?xs)) with (x ++ mjoin xs). rewrite Hunits.
    unfold utf16_units, pair_code_point in *.
    unfold is_lead, is_trail in Hl, Hd.
    apply andb_true_iff in Hl as [Hl1%N.leb_le Hl2%N.leb_le].
    apply andb_True in Hd as [Hd1 Hd2].
    apply Is_true_true, N.leb_le in Hd1, Hd2.
    compare_units. simpl. f_equal; [lia|]. f_equal. lia.
  - apply andb_True in Hwf as [_ Hwf].
    destruct (IH rest) as [Hbound Hunits]; [lia|done..|].
    split; [constructor; [lia|done]|].
    rewrite fmap_cons.
    change (mjoin (?x :: ?xs)) with (x ++ mjoin xs). rewrite Hunits.
    unfold utf16_units. by rewrite (proj2 (N.ltb_lt _ _) Hc).
Qed.

Lemma decode_percent_encode s :
  well_formed s → utf16 s → decode_text (percent_encode s) = Some s.
Proof.
  intros Hwf Hs.
  destruct (code_points_utf16 _ s (Nat.le_refl _) Hwf Hs) as [Hbound Hunits].
  unfold decode_text, percent_encode.
  rewrite unescape_escaped.
  - simpl. rewrite utf8_decode_utf8 by done. simpl. by rewrite Hunits.
  - apply Forall_join, Forall_fmap.
    eapply Forall_impl; [exact Hbound|]. intros cp. apply utf8_octets.
Qed.

Lemma encodeURIComponent_Ok s t :
  encodeURIComponent s = Ok t → well_formed s ∧ t = percent_encode s.
Proof.
  intros Ht. destruct (well_formed s) eqn:Hwf.
  - split; [done|].
    rewrite encodeURIComponent_well_formed in Ht by (by rewrite Hwf).
    by injection Ht.
  - by rewrite (encodeURIComponent_throws _ s (Nat.le_refl _) Hwf) in Ht.
Qed.

Lemma app_digits_inv (p1 p2 r1 r2 : jsstring) (q : code_unit) :
  Forall (λ c, is_digit c) p1 → Forall (λ c, is_digit c) p2 →
  ¬ is_digit q → p1 ++ q :: r1 = p2 ++ q :: r2 → p1 = p2 ∧ r1 = r2.
Proof.
  intros Hp1. revert p2. induction Hp1 as [|c p1 Hc _ IH]; intros p2 Hp2 Hq Heq.
  - destruct Hp2 as [|d p2 Hd _]; simpl in Heq.
    + by injection Heq.
    + injection Heq as -> _. done.
  - destruct Hp2 as [|d p2 Hd Hp2]; simpl in Heq.
    + injection Heq as -> _. done.
    + injection Heq as -> Heq. destruct (IH p2 Hp2 Hq Heq) as [-> ->]. done.
Qed.

(** X11: the message can be read back from the link: decoding the text
    after "?text=" (percent-decoding, then UTF-8) gives exactly the message
    the link was built from. *)
Theorem makeWhatsAppLink_decodes (phone message link : jsstring) :
  utf16 message → makeWhatsAppLink phone message = Ok link →
  ∃ text,
    link = js "https://wa.me/" ++ phone ++ js "?text=" ++ text
    ∧ decode_text text = Some message.
Proof.
  intros Hm. unfold makeWhatsAppLink.
  destruct (encodeURIComponent message) as [text|] eqn:Ht; [|done].
  intros [= <-]. exists text. split; [done|].
  apply encodeURIComponent_Ok in Ht as [Hwf ->].
  by apply decode_percent_encode.
Qed.

Lemma makeWhatsAppLink_decodes_witness :
  ∃ text,
    js "https://wa.me/5511999999999?text=Ol%C3%A1%20%F0%9F%98%80"
    = js "https://wa.me/" ++ js "5511999999999" ++ js "?text=" ++ text
    ∧ decode_text text = Some (js "Ol" ++ [225; 32; 55357; 56832]).
Proof.
  apply (makeWhatsAppLink_decodes (js "5511999999999")
           (js "Ol" ++ [225; 32; 55357; 56832])).
  - vm_compute. repeat (constructor; [reflexivity|]). constructor.
  - vm_compute. reflexivity.
Defined.

(** X12: two different pairs of a valid phone value and a message never
    give the same link. *)
Theorem makeWhatsAppLink_injective (p1 p2 m1 m2 link : jsstring) :
  valid_phone p1 → valid_phone p2 → utf16 m1 → utf16 m2 →
  makeWhatsAppLink p1 m1 = Ok link → makeWhatsAppLink p2 m2 = Ok link →
  p1 = p2 ∧ m1 = m2.
Proof.
  intros [Hp1 _] [Hp2 _] Hm1 Hm2. unfold makeWhatsAppLink.
  destruct (encodeURIComponent m1) as [t1|] eqn:Ht1; [|done].
  destruct (encodeURIComponent m2) as [t2|] eqn:Ht2; [|done].
  intros H1 H2. rewrite <- H1 in H2. apply Ok_result in H2 as Heq.
  apply encodeURIComponent_Ok in Ht1 as [Hwf1 ->].
  apply encodeURIComponent_Ok in Ht2 as [Hwf2 ->].
  pose proof (decode_percent_encode m1 Hwf1 Hm1) as Hd1.
  pose proof (decode_percent_encode m2 Hwf2 Hm2) as Hd2.
  apply app_inv_head in Heq.
  change (js "?text=" ++ ?t) with (63 :: (js "text=" ++ t)) in Heq.
  apply app_digits_inv in Heq as [-> Heq];
    [|done|done|vm_compute; by intros []].
  apply app_inv_head in Heq. split; [done|]. congruence.
Qed.

End RoundTrip.

Lemma makeWhatsAppLink_injective_witness :
  js "14155552671" = js "14155552671" ∧ js "Hi there!" = js "Hi there!".
Proof.
  apply (makeWhatsAppLink_injective _ _ _ _
           (js "https://wa.me/14155552671?text=Hi%20there!")).
  - split; [vm_compute; repeat (constructor; [exact I|]); constructor
           | vm_compute; lia].
  - split; [vm_compute; repeat (constructor; [exact I|]); constructor
           | vm_compute; lia].
  - vm_compute. repeat (constructor; [reflexivity|]). constructor.
  - vm_compute. repeat (constructor; [reflexivity|]). constructor.
  - vm_compute. reflexivity.
  - vm_compute. reflexivity.
Defined.

(** ** More on the dispatcher *)

Section DispatchMore.

Variables (batchSize delayMs : Z) (message : jsstring).
Variable server : list jsstring → jsstring → fetch_outcome.

Lemma foldl_apply_effect_last sending t b :
  foldl apply_effect sending (t ++ [SetSending b]) = b.
Proof. by rewrite foldl_app. Qed.

(** The trace of a guarded click is wrapped in the two [setSending]. *)
Lemma openLinks_wrapped recipients useApi :
  message ≠ [] → recipients ≠ [] →
  ∃ t,
    (openLinks batchSize delayMs message server recipients useApi).1
    = [SetSending true] ++ t ++ [SetSending false]
    ∧ t = (if useApi
           then (sendViaApi message server recipients).1
           else (openNextBatch batchSize delayMs message recipients 0).1).
Proof.
  intros Hm Hr. unfold openLinks.
  destruct message as [|c m]; [done|]. destruct recipients as [|r rs]; [done|].
  cbn [truthy negb orb length Nat.eqb].
  unfold mbind, M_bind, bind, finally, emit.
  destruct useApi.
  - destruct (sendViaApi _ _ _) as [t [[]|e]]; simpl; eexists;
      (split; [|done]); by rewrite ?app_nil_r.
  - destruct (openNextBatch _ _ _ _ _) as [t [[index' timer]|e]]; simpl;
      eexists; (split; [|done]); by rewrite ?app_nil_r.
Qed.

(** X13: a click that passes the guard always ends with the sending flag
    cleared: its trace starts with [setSending(true)] and ends with
    [setSending(false)], in both modes, whether the body returned or
    threw, and even when a timer is still pending. *)
Theorem openLinks_clears_sending (recipients : list Recipient)
    (useApi sending : bool) :
  message ≠ [] → recipients ≠ [] →
  let t := (openLinks batchSize delayMs message server recipients useApi).1 in
  head t = Some (SetSending true)
  ∧ last t = Some (SetSending false)
  ∧ foldl apply_effect sending t = false.
Proof.
  intros Hm Hr.
  destruct (openLinks_wrapped recipients useApi Hm Hr) as (t & Ht & _).
  simpl. rewrite Ht. split_and!.
  - done.
  - by rewrite app_assoc, last_snoc.
  - by rewrite app_assoc, foldl_apply_effect_last.
Qed.

(** X14: in API mode a click that passes the guard makes exactly one
    request, carrying every parsed phone value in order and the message;
    it opens no tab and sets no timer, whatever the server answers. *)
Theorem openLinks_api_mode (recipients : list Recipient) (fuel : nat) :
  message ≠ [] → recipients ≠ [] →
  ∃ t st,
    dispatch batchSize delayMs message server fuel recipients true = ([t], st)
    ∧ (∀ index, st ≠ Pending index)
    ∧ filter (λ e, is_api_call e) t = [FetchSend (phone <$> recipients) message]
    ∧ filter (λ e, is_open e) t = []
    ∧ filter (λ e, is_timer e) t = [].
Proof.
  intros Hm Hr. unfold dispatch, openLinks.
  destruct message as [|c m] eqn:Em; [done|]. rewrite <- Em in *.
  destruct recipients as [|r rs] eqn:Er; [done|]. rewrite <- Er in *.
  replace (negb (truthy message) || (length recipients =? 0)%nat) with false
    by (by rewrite Em, Er).
  unfold mbind, M_bind, bind, finally, emit, sendViaApi, throw.
  destruct (server _ _) as [| ok | [|] [| | | | |]]; simpl;
    eexists _, _; (split; [reflexivity|]); split_and!; try done.
Qed.

Lemma for_of_throws (batch : list Recipient) :
  ¬ well_formed message → batch ≠ [] →
  for_of batch (λ r,
    url ← lift (makeWhatsAppLink (phone r) message); emit (WindowOpen url))
  = ([], Throw URIError).
Proof.
  intros Hwf Hne. destruct batch as [|r batch]; [done|].
  change (for_of (r :: batch) ?body) with (body r ;; for_of batch body).
  unfold makeWhatsAppLink.
  rewrite (encodeURIComponent_throws _ message (Nat.le_refl _))
    by (by apply Is_true_false_1).
  done.
Qed.

(** X15: in client mode, a message that cannot be encoded (an unpaired
    surrogate) opens no tab at all: the first call throws URIError before
    any [window.open], no timer is set, and the flag is cleared. *)
Theorem dispatch_unencodable (recipients : list Recipient) (fuel : nat) :
  (1 ≤ batchSize)%Z → message ≠ [] → ¬ well_formed message →
  recipients ≠ [] →
  dispatch batchSize delayMs message server fuel recipients false
  = ([[SetSending true; SetSending false]], Uncaught URIError).
Proof.
  intros Hb Hm Hwf Hr. rewrite dispatch_batch_loop by done.
  simpl. unfold openNextBatch.
  change 0%Z with (Z.of_nat 0). rewrite slice_batch by lia.
  rewrite drop_0, for_of_throws; [done..|].
  destruct recipients; [done|].
  destruct (Z.to_nat batchSize) eqn:Eb; [lia|done].
Qed.

End DispatchMore.

Section BatchEdges.

Variables (batchSize delayMs : Z) (message : jsstring).
Variable server : list jsstring → jsstring → fetch_outcome.

(** The slice of a call with a negative batch size, at a cursor that is 0
    or negative. *)
Lemma slice_negative {A} (l : list A) (index : Z) :
  (batchSize < 0)%Z → (index ≤ 0)%Z →
  slice l index (index + batchSize)
  = if bool_decide (index = 0%Z)
    then take (Z.to_nat (Z.of_nat (length l) + batchSize)) l
    else [].
Proof.
  intros Hb Hi. unfold slice.
  rewrite (proj2 (Z.ltb_lt (index + batchSize) 0)) by lia.
  case_bool_decide as H0.
  - subst index. simpl. rewrite Z.min_l by lia. simpl.
    f_equal. lia.
  - rewrite (proj2 (Z.ltb_lt index 0)) by lia.
    replace (Z.to_nat _) with 0%nat by lia. done.
Qed.

Lemma batch_loop_negative text toOpen fuel (index : Z) :
  (batchSize < 0)%Z → may_open message text → (index ≤ 0)%Z →
  ∃ log,
    batch_loop batchSize delayMs message fuel toOpen index
    = (log, Pending (index + Z.of_nat fuel * batchSize))
    ∧ length log = fuel
    ∧ mjoin (opens <$> log)
      = if bool_decide (index = 0%Z) && bool_decide (fuel ≠ 0%nat)
        then link_for text
               <$> take (Z.to_nat (Z.of_nat (length toOpen) + batchSize)) toOpen
        else [].
Proof.
  intros Hb Henc. revert index.
  induction fuel as [|fuel IH]; intros index Hi.
  { exists []. split_and!; [simpl; by rewrite Z.add_0_r|done|].
    by rewrite andb_false_r. }
  simpl. unfold openNextBatch. unfold mbind, M_bind.
  rewrite (for_of_opens message text) by done.
  rewrite slice_negative by done. simpl.
  rewrite (proj2 (Z.ltb_lt _ _)) by lia. simpl.
  destruct (IH (index + batchSize)%Z) as (log & -> & Hlen & Hopens); [lia|].
  eexists. split_and!.
  - f_equal. f_equal. lia.
  - simpl. by rewrite Hlen.
  - rewrite fmap_cons.
    change (mjoin (?x :: ?xs)) with (x ++ mjoin xs).
    rewrite Hopens, (bool_decide_false (index + batchSize = 0)%Z) by lia.
    simpl. rewrite app_nil_r, andb_true_r.
    change ((WindowOpen <$> ?g) ++ [SetTimeout delayMs])
      with (call_trace delayMs true g).
    rewrite opens_call_trace. by destruct (bool_decide (index = 0%Z)).
Qed.

(** X16: with a negative batch size -k the loop never completes either:
    the first call opens the links of all but the last k recipients, every
    later call opens nothing, and each call sets the timer again. *)
Theorem batch_loop_negative_size (text : jsstring) (toOpen : list Recipient)
    (fuel : nat) :
  (batchSize < 0)%Z → may_open message text →
  ∃ log,
    batch_loop batchSize delayMs message (S fuel) toOpen 0
    = (log, Pending (Z.of_nat (S fuel) * batchSize))
    ∧ length log = S fuel
    ∧ mjoin (opens <$> log)
      = link_for text <$> take (length toOpen - Z.to_nat (- batchSize)) toOpen.
Proof.
  intros Hb Henc.
  destruct (batch_loop_negative text toOpen (S fuel) 0 Hb Henc)
    as (log & Hrun & Hlen & Hopens); [done|].
  exists log. split_and!; [by rewrite Hrun|done|].
  rewrite Hopens. simpl. do 2 f_equal. lia.
Qed.

Lemma timers_call_trace more g :
  filter (λ e, is_timer e) (call_trace delayMs more g)
  = if more then [SetTimeout delayMs] else [].
Proof.
  unfold call_trace. rewrite filter_app.
  replace (filter (λ e, is_timer e) (WindowOpen <$> g)) with (@nil effect).
  - by destruct more.
  - induction g as [|u g IH]; [done|].
    rewrite fmap_cons, filter_cons_False by (by intros ?). done.
Qed.

Lemma batch_loop_nonempty fuel toOpen index st :
  batch_loop batchSize delayMs message fuel toOpen index = ([], st) →
  st = Pending index.
Proof.
  destruct fuel as [|fuel]; simpl; [by intros [= <-]|].
  destruct (openNextBatch _ _ _ _ _) as [t [[? [|]]|?]];
    [destruct (batch_loop _ _ _ _ _ _)|..]; done.
Qed.

(** With a positive batch size, every call of a chain but the last sets
    one timer, with the configured delay. *)
Lemma batch_loop_timers text toOpen fuel (i : nat) log :
  (1 ≤ batchSize)%Z → may_open message text → (i < length toOpen)%nat →
  batch_loop batchSize delayMs message fuel toOpen (Z.of_nat i)
  = (log, Completed) →
  filter (λ e, is_timer e) (mjoin log)
  = replicate (length log - 1) (SetTimeout delayMs).
Proof.
  intros Hb Henc. revert i log.
  induction fuel as [|fuel IH]; intros i log Hi Hrun; [done|].
  simpl in Hrun. rewrite (openNextBatch_call _ _ _ text) in Hrun by (done || lia).
  case_bool_decide as Hmore.
  - destruct (batch_loop _ _ _ fuel _ _) as [ts st] eqn:Hrest.
    injection Hrun as <- ->.
    replace (Z.of_nat (i + Z.to_nat batchSize)) with
      (Z.of_nat (i + Z.to_nat batchSize)%nat) in Hrest by done.
    pose proof (IH _ _ Hmore Hrest) as Hts.
    change (mjoin (?x :: ?xs)) with (x ++ mjoin xs).
    rewrite filter_app, timers_call_trace, Hts.
    destruct ts as [|t ts]; [by apply batch_loop_nonempty in Hrest|].
    simpl. by rewrite Nat.sub_0_r.
  - injection Hrun as <-. simpl. rewrite app_nil_r.
    apply (timers_call_trace false).
Qed.

(** X17: in client mode with a positive batch size, a click sets exactly
    one timer after each batch but the last, each with the configured
    delay: ceil(n/b) - 1 timers in all, and none once everything is
    opened. *)
Theorem dispatch_timers (text : jsstring) (recipients : list Recipient)
    (fuel : nat) :
  (1 ≤ batchSize)%Z → message ≠ [] → may_open message text →
  recipients ≠ [] → (length recipients ≤ fuel)%nat →
  ∃ log,
    dispatch batchSize delayMs message server fuel recipients false
    = (log, Completed)
    ∧ filter (λ e, is_timer e) (mjoin log)
      = replicate (ceil_div (length recipients) (Z.to_nat batchSize) - 1)
          (SetTimeout delayMs).
Proof.
  intros Hb Hm Henc Hr Hfuel.
  rewrite dispatch_batch_loop by done.
  destruct (batch_loop_chunks batchSize delayMs message text recipients
              (S fuel) 0) as (log & Hrun & Hlog); [done..| | |].
  { destruct recipients; [done|simpl; lia]. }
  { lia. }
  pose proof (batch_loop_timers text recipients (S fuel) 0 log Hb Henc) as Htimers.
  change (Z.of_nat 0) with 0%Z in *. rewrite Hrun.
  assert (length log = ceil_div (length recipients) (Z.to_nat batchSize))
    as Hlen.
  { rewrite <- (length_fmap opens), Hlog, drop_0, chunks_length by lia.
    by rewrite length_fmap. }
  destruct log as [|t ts]; [by apply batch_loop_nonempty in Hrun|].
  eexists. split; [done|].
  rewrite <- Hlen.
  rewrite <- Htimers; [|destruct recipients; [done|simpl; lia]|done].
  change (mjoin (?x :: ?xs)) with (x ++ mjoin xs).
  rewrite !filter_app. f_equal.
  change (filter _ [SetSending true]) with (@nil effect).
  change (filter _ [SetSending false]) with (@nil effect).
  by rewrite app_nil_r.
Qed.

End BatchEdges.

Lemma batch_loop_negative_size_witness :
  ∃ log,
    batch_loop (-2)%Z 1200 (js "Hi") 4 (sample_recipients 5) 0
    = (log, Pending (-8)%Z)
    ∧ length log = 4%nat
    ∧ length (mjoin (opens <$> log)) = 3%nat.
Proof.
  destruct (batch_loop_negative_size (-2)%Z 1200 (js "Hi") (js "Hi")
              (sample_recipients 5) 3) as (log & Hrun & Hlen & Hopens);
    [lia|vm_compute; reflexivity|].
  exists log. split_and!; [exact Hrun|exact Hlen|].
  rewrite Hopens. vm_compute. reflexivity.
Defined.

Lemma openLinks_clears_sending_witness :
  foldl apply_effect true
    (openLinks 2 1200 [55296] unreachable (sample_recipients 3) false).1
  = false.
Proof.
  destruct (openLinks_clears_sending 2 1200 [55296] unreachable
              (sample_recipients 3) false true) as (_ & _ & H);
    [vm_compute; discriminate..|exact H].
Defined.

Lemma openLinks_api_mode_witness :
  ∃ t st,
    dispatch 2 1200 (js "Hi") unreachable 5 (sample_recipients 3) true = ([t], st)
    ∧ filter (λ e, is_api_call e) t
      = [FetchSend (phone <$> sample_recipients 3) (js "Hi")].
Proof.
  destruct (openLinks_api_mode 2 1200 (js "Hi") unreachable
              (sample_recipients 3) 5) as (t & st & Hrun & _ & Hcall & _);
    [vm_compute; discriminate..|].
  exists t, st. split; [exact Hrun|exact Hcall].
Defined.

Lemma dispatch_unencodable_witness :
  dispatch 2 1200 [55296] unreachable 5 (sample_recipients 3) false
  = ([[SetSending true; SetSending false]], Uncaught URIError).
Proof.
  apply dispatch_unencodable;
    [lia | vm_compute; discriminate | vm_compute; tauto
     | vm_compute; discriminate].
Defined.

Lemma dispatch_timers_witness :
  ∃ log,
    dispatch 10 1200 (js "Hi there!") unreachable 25 (sample_recipients 25) false
    = (log, Completed)
    ∧ filter (λ e, is_timer e) (mjoin log) = [SetTimeout 1200; SetTimeout 1200].
Proof.
  destruct (dispatch_timers 10 1200 (js "Hi there!") unreachable
              (js "Hi%20there!") (sample_recipients 25) 25)
    as (log & Hrun & Htimers);
    [lia | vm_compute; discriminate | vm_compute; reflexivity
     | vm_compute; discriminate | vm_compute; lia |].
  exists log. split; [exact Hrun|exact Htimers].
Defined.

(** ** From the text to the tabs, and the exported file *)

Section EndToEnd.

Variables (batchSize delayMs : Z) (message : jsstring).
Variable server : list jsstring → jsstring → fetch_outcome.




Lemma map_throwing_links text recipients :
  may_open message text →
  map_throwing (λ r, makeWhatsAppLink (phone r) message) recipients
  = Ok (link_for text <$> recipients).
Proof.
  intros Henc. induction recipients as [|r rs IH]; [done|].
  simpl. rewrite IH. unfold makeWhatsAppLink. by rewrite Henc.
Qed.


(** X20: the export has no guard: with no recipient it produces an empty
    file, whatever the message; with a recipient and a message that
    cannot be encoded it throws URIError and produces no file. *)
Theorem exportLinks_edges (recipients : list Recipient) :
  exportLinks [] message
  = Ok (mkDownload (js "whatsapp_links.txt") (js "text/plain;charset=utf-8") [])
  ∧ (recipients ≠ [] → ¬ well_formed message →
     exportLinks recipients message = Throw URIError).
Proof.
  split; [done|]. intros Hr Hwf. unfold exportLinks.
  destruct recipients as [|r rs]; [done|]. simpl.
  unfold makeWhatsAppLink.
  rewrite (encodeURIComponent_throws _ message (Nat.le_refl _))
    by (by apply Is_true_false_1).
  done.
Qed.

Lemma url_safe_not_sep c : url_safe c → is_sep c = false.
Proof.
  unfold url_safe, unescaped, is_alpha, is_digit, is_mark, PERCENT, is_sep,
    LF, COMMA, SEMICOLON, TAB.
  rewrite !orb_True, !andb_True, !Is_true_true, !N.leb_le, !N.eqb_eq.
  intros H. repeat (apply orb_false_intro); apply N.eqb_neq; lia.
Qed.

(** X21: no link of a parsed recipient contains a newline (nor a comma,
    semicolon or tab), so that cutting the exported file at the newlines
    gives back exactly the links, one per recipient. *)
Theorem exportLinks_lines (raw : jsstring) (file : download) :
  utf16 message → parseNumbers raw ≠ [] →
  exportLinks (parseNumbers raw) message = Ok file →
  ∃ links,
    split_seps (content file) = links
    ∧ length links = length (parseNumbers raw)
    ∧ Forall2 (λ r u, makeWhatsAppLink (phone r) message = Ok u)
        (parseNumbers raw) links.
Proof.
  intros Hm Hne. unfold exportLinks.
  destruct (encodeURIComponent message) as [text|] eqn:Henc.
  - rewrite (map_throwing_links text) by done. intros [= <-]. simpl.
    exists (link_for text <$> parseNumbers raw).
    pose proof (encodeURIComponent_safe _ _ _ (Nat.le_refl _) Hm Henc) as Hsafe.
    split_and!.
    + unfold split_seps. apply split_from_join.
      * by destruct (parseNumbers raw).
      * apply Forall_fmap, Forall_forall. intros r Hr. split; [done|].
        unfold link_for. rewrite !Forall_app. split_and!.
        -- vm_compute. repeat (constructor; [reflexivity|]). constructor.
        -- pose proof (phones_valid raw) as Hvalid.
           rewrite Forall_forall in Hvalid.
           destruct (Hvalid (phone r)) as [Hd _];
             [by apply list_elem_of_fmap_2|].
           eapply Forall_impl; [exact Hd|]. intros c. apply digit_not_sep.
        -- vm_compute. repeat (constructor; [reflexivity|]). constructor.
        -- eapply Forall_impl; [exact Hsafe|]. intros c. apply url_safe_not_sep.
    + by rewrite length_fmap.
    + apply Forall2_fmap_r, Forall_Forall2_diag, Forall_forall.
      intros r _. unfold makeWhatsAppLink. by rewrite Henc.
  - destruct (parseNumbers raw) as [|r rs]; [done|]. simpl.
    unfold makeWhatsAppLink. by rewrite Henc.
Qed.

End EndToEnd.



Lemma exportLinks_edges_witness :
  exportLinks (sample_recipients 2) [56320] = Throw URIError.
Proof.
  destruct (exportLinks_edges [56320] (sample_recipients 2)) as [_ H].
  apply H; [vm_compute; discriminate|vm_compute; tauto].
Defined.

Lemma exportLinks_lines_witness :
  ∃ links,
    split_seps
      (js "https://wa.me/447911123456?text=a%2Cb" ++ [LF]
       ++ js "https://wa.me/5511999999999?text=a%2Cb")
    = links
    ∧ length links = 2%nat.
Proof.
  destruct (exportLinks_lines (js "a,b") (js "447911123456;+5511999999999")
              (mkDownload (js "whatsapp_links.txt")
                 (js "text/plain;charset=utf-8")
                 (js "https://wa.me/447911123456?text=a%2Cb" ++ [LF]
                  ++ js "https://wa.me/5511999999999?text=a%2Cb")))
    as (links & Hsplit & Hlen & _).
  - vm_compute. repeat (constructor; [reflexivity|]). constructor.
  - vm_compute. discriminate.
  - vm_compute. reflexivity.
  - exists links. split; [exact Hsplit|]. rewrite Hlen. vm_compute. reflexivity.
Defined.

(** ** More on the send route *)

Section RouteMore.

Context {world : Type}.
Variable graph : world → outbound → fetch_outcome * world.
Variable cfg : env.

(** A valid payload in a configured environment: the handler runs the
    loop over the recipients of the payload, with its message. *)
Lemma POST_runs req_body w :
  valid_payload req_body = true → configured cfg = true →
  ∃ results calls w',
    POST graph cfg req_body w
    = (mkResponse 200 (SendBody (length (filter (λ r, ok r) results)) results),
       calls, w')
    ∧ opt_get req_body (js "message") = Some (payload_message req_body)
    ∧ sequential_run graph
        (λ x, request_for cfg x (payload_message req_body))
        w (payload_recipients req_body) results calls w'.
Proof.
  intros Hv Hc.
  unfold POST, valid_payload, configured, payload_recipients, payload_message,
    or_else in *.
  destruct (opt_get req_body (js "recipients"))
    as [[| | | |[|x xs]|]|]; try done.
  destruct (opt_get req_body (js "message")) as [m|]; [|done].
  rewrite !Hv.
  destruct (ACCESS_TOKEN cfg) as [[|? ?]|] eqn:Htoken; try done.
  destruct (PHONE_NUMBER_ID cfg) as [[|? ?]|] eqn:Hid; try done.
  cbn [truthy_json is_array elements negb orb length Nat.eqb truthy_var
       JsString.truthy default].
  destruct (send_loop_sequential graph cfg m (x :: xs) [] [] w)
    as (results & calls & w' & Hloop & Hrun).
  rewrite Hloop. by exists results, calls, w'.
Qed.

Lemma POST_unconfigured req_body w :
  valid_payload req_body = true → configured cfg = false →
  status (POST graph cfg req_body w).1.1 = 501%Z.
Proof.
  intros Hv Hc. unfold POST, valid_payload, configured, or_else in *.
  destruct (opt_get req_body (js "recipients"))
    as [[| | | |[|x xs]|]|]; try done.
  destruct (opt_get req_body (js "message")) as [m|]; [|done].
  rewrite !Hv. simpl.
  destruct (ACCESS_TOKEN cfg) as [[|? ?]|]; try done.
  destruct (PHONE_NUMBER_ID cfg) as [[|? ?]|]; done.
Qed.

Lemma sequential_run_count (request : json → outbound) w xs results calls w' :
  sequential_run graph request w xs results calls w' →
  (length (filter (λ r, ok r) results) ≤ length xs)%nat
  ∧ (length (filter (λ r, ok r) results) = length xs
     ↔ Forall (λ r, ok r = true) results)
  ∧ ((∀ v c, replied_ok (graph v c).1 = false) →
     filter (λ r, ok r) results = []
     ∧ Forall (λ r, ok r = false ∧ is_Some (error r)) results).
Proof.
  induction 1 as [|w x xs r rs calls w' Hto Hok Herr _ (IH1 & IH2 & IH3)].
  - split_and!; [done| |done]. split; [constructor|done].
  - rewrite filter_cons. destruct (ok r) eqn:Hr.
    + rewrite decide_True by done. cbn [length]. split_and!; [lia| |].
      * rewrite Forall_cons. split.
        -- intros Hlen. split; [done|]. apply IH2. lia.
        -- intros [_ Hall]. f_equal. by apply IH2.
      * intros Hfail. specialize (Hfail w (request x)). congruence.
    + rewrite decide_False by (by intros ?). split_and!; [cbn [length]; lia| |].
      * split; [cbn [length]; lia|].
        intros Hall. apply Forall_cons in Hall as [? _]. congruence.
      * intros Hfail. destruct (IH3 Hfail) as [-> Hall].
        split; [done|]. constructor; [|done]. split; [done|by apply Herr].
Qed.

(** X22: every outbound call of one request goes to the same URL, built
    from the configured phone number id, carries the same bearer token and
    the message as it was received; only the recipient differs. *)
Theorem POST_calls_uniform (req_body : value) (w : world) :
  valid_payload req_body = true → configured cfg = true →
  ∃ token numberId,
    ACCESS_TOKEN cfg = Some token ∧ PHONE_NUMBER_ID cfg = Some numberId
    ∧ Forall (λ c,
        url c = js "https://graph.facebook.com/v20.0/" ++ numberId
                ++ js "/messages"
        ∧ authorization c = js "Bearer " ++ token
        ∧ opt_get req_body (js "message") = Some (text_body c))
        (POST graph cfg req_body w).1.2.
Proof.
  intros Hv Hc.
  destruct (POST_runs req_body w Hv Hc)
    as (results & calls & w' & -> & Hmsg & Hrun).
  destruct (sequential_run_records graph _ _ _ _ _ _ Hrun) as [_ ->].
  unfold configured in Hc.
  destruct (ACCESS_TOKEN cfg) as [token|] eqn:Htoken; [|done].
  destruct (PHONE_NUMBER_ID cfg) as [numberId|] eqn:Hid;
    [|by destruct token].
  exists token, numberId. split_and!; [done..|]. cbn [fst snd].
  apply Forall_fmap, Forall_forall. intros y _.
  unfold request_for. simpl. by rewrite Htoken, Hid.
Qed.

(** X23: the count never exceeds the number of recipients and equals it
    exactly when every record is ok; when no call succeeds the answer is
    still 200, with count 0 and one failed record, with its error, per
    recipient. *)
Theorem POST_count (req_body : value) (w : world) :
  valid_payload req_body = true → configured cfg = true →
  ∃ count results,
    (POST graph cfg req_body w).1.1 = mkResponse 200 (SendBody count results)
    ∧ (count ≤ length (payload_recipients req_body))%nat
    ∧ (count = length (payload_recipients req_body)
       ↔ Forall (λ r, ok r = true) results)
    ∧ ((∀ v c, replied_ok (graph v c).1 = false) →
       count = 0%nat
       ∧ Forall (λ r, ok r = false ∧ is_Some (error r)) results
       ∧ length results = length (payload_recipients req_body)).
Proof.
  intros Hv Hc.
  destruct (POST_runs req_body w Hv Hc)
    as (results & calls & w' & -> & _ & Hrun).
  destruct (sequential_run_count _ _ _ _ _ _ Hrun) as (Hle & Hall & Hnone).
  destruct (sequential_run_records graph _ _ _ _ _ _ Hrun) as [Hto _].
  eexists _, _. split_and!; [done|exact Hle|exact Hall|].
  intros Hfail. destruct (Hnone Hfail) as [-> Hfailed].
  split_and!; [done..|]. by rewrite <- (length_fmap to), Hto.
Qed.

(** X24: the body the page sends after its guard (a non-empty message and
    the phone values of at least one parsed recipient) is always a valid
    payload: the route never answers such a request with 400; when
    configured it makes exactly one call per parsed recipient, in order,
    to distinct numbers of 8 to 15 digits. *)
Theorem POST_page_request (raw message : jsstring) (w : world) :
  message ≠ [] → parseNumbers raw ≠ [] →
  let phones := phone <$> parseNumbers raw in
  let answer := POST graph cfg (Some (request_json phones message)) w in
  status answer.1.1 ≠ 400%Z
  ∧ (configured cfg = true →
     to_field <$> answer.1.2 = JStr <$> phones
     ∧ NoDup phones ∧ Forall valid_phone phones).
Proof.
  intros Hm Hr phones answer.
  assert (valid_payload (Some (request_json phones message)) = true) as Hv.
  { unfold phones. destruct (parseNumbers raw) as [|r rs]; [done|].
    destruct message; [done|]. reflexivity. }
  assert (payload_recipients (Some (request_json phones message))
          = JStr <$> phones) as Hrecipients by reflexivity.
  split.
  - destruct (configured cfg) eqn:Hc.
    + destruct (POST_runs _ w Hv Hc) as (results & calls & w' & Hst & _).
      subst answer. by rewrite Hst.
    + subst answer. by rewrite (POST_unconfigured _ w Hv Hc).
  - intros Hc. split_and!.
    + destruct (POST_runs _ w Hv Hc) as (results & calls & w' & Hst & _ & Hrun).
      subst answer. rewrite Hst. cbn [fst snd].
      destruct (sequential_run_records graph _ _ _ _ _ _ Hrun) as [_ ->].
      rewrite Hrecipients, <- list_fmap_compose. apply list_fmap_id.
    + unfold phones. rewrite phones_parseNumbers. apply keep_first_NoDup.
    + apply phones_valid.
Qed.

End RouteMore.

Lemma POST_calls_uniform_witness :
  Forall (λ c,
      url c = js "https://graph.facebook.com/v20.0/1234567890/messages"
      ∧ authorization c = js "Bearer token")
    (POST flaky_graph sample_env sample_payload 0%nat).1.2.
Proof.
  destruct (POST_calls_uniform flaky_graph sample_env sample_payload 0%nat)
    as (token & numberId & Htoken & Hid & Hcalls);
    [vm_compute; reflexivity..|].
  injection Htoken as <-. injection Hid as <-.
  eapply Forall_impl; [exact Hcalls|]. intros c (Hurl & Hauth & _).
  split; [exact Hurl|exact Hauth].
Defined.

Lemma POST_count_witness :
  ∃ count results,
    (POST flaky_graph sample_env sample_payload 0%nat).1.1
    = mkResponse 200 (SendBody count results)
    ∧ (count ≤ 3)%nat.
Proof.
  destruct (POST_count flaky_graph sample_env sample_payload 0%nat)
    as (count & results & Hst & Hle & _); [vm_compute; reflexivity..|].
  exists count, results. split; [exact Hst|exact Hle].
Defined.

Lemma POST_page_request_witness :
  status (POST flaky_graph sample_env
            (Some (request_json
                     (phone <$> parseNumbers (js "447911123456,+5511999999999"))
                     (js "Hi there!"))) 0%nat).1.1
  ≠ 400%Z.
Proof.
  destruct (POST_page_request flaky_graph sample_env
              (js "447911123456,+5511999999999") (js "Hi there!") 0%nat)
    as [H _]; [vm_compute; discriminate..|exact H].
Defined.

(** ** What the click shows and when *)

Section Feedback.

Variables (batchSize delayMs : Z) (message : jsstring).

(** X25: in API mode the user gets exactly one alert when the reply could
    be read (any status, any body but a 2xx null), and none when the
    request or the reading of its body failed, or when a 2xx reply is the
    JSON null: then the click ends with an uncaught exception. *)
Theorem openLinks_api_alerts (server : list jsstring → jsstring → fetch_outcome)
    (recipients : list Recipient) (fuel : nat) :
  message ≠ [] → recipients ≠ [] →
  let run := dispatch batchSize delayMs message server fuel recipients true in
  let alerts := filter (λ e, is_alert e) (mjoin run.1) in
  match server (phone <$> recipients) message with
  | FetchRejects | JsonRejects _ => alerts = [] ∧ run.2 = Uncaught Rejected
  | Replies true JNull => alerts = [] ∧ run.2 = Uncaught TypeError
  | Replies true data =>
      alerts = [Alert (AlertQueued (opt_get (Some data) (js "count")))]
      ∧ run.2 = Completed
  | Replies false data =>
      length alerts = 1%nat ∧ run.2 = Completed
      ∧ (opt_get (Some data) (js "error") = None →
         alerts = [Alert AlertServerFailed])
  end.
Proof.
  intros Hm Hr. unfold dispatch, openLinks.
  destruct message as [|c m] eqn:Em; [done|]. rewrite <- Em in *.
  destruct recipients as [|r rs] eqn:Er; [done|]. rewrite <- Er in *.
  replace (negb (truthy message) || (length recipients =? 0)%nat) with false
    by (by rewrite Em, Er).
  unfold mbind, M_bind, bind, finally, emit, sendViaApi, throw.
  destruct (server _ _) as [| ok | [|] data]; [done..| |].
  - by destruct data.
  - simpl. destruct (truthy_value _) eqn:Ht; simpl; split_and!; try done.
    intros Hnone. by rewrite Hnone in Ht.
Qed.

End Feedback.

Lemma openLinks_api_alerts_witness :
  filter (λ e, is_alert e)
    (mjoin (dispatch 2 1200 (js "Hi") (λ _ _, Replies true JNull) 5
              (sample_recipients 3) true).1)
  = []
  ∧ (dispatch 2 1200 (js "Hi") (λ _ _, Replies true JNull) 5
       (sample_recipients 3) true).2
    = Uncaught TypeError.
Proof.
  apply (openLinks_api_alerts 2 1200 (js "Hi") (λ _ _, Replies true JNull)
           (sample_recipients 3) 5); vm_compute; discriminate.
Defined.

Section TimerCallbacks.

Variables (batchSize delayMs : Z) (message : jsstring).
Variable server : list jsstring → jsstring → fetch_outcome.

Lemma for_of_effects (batch : list Recipient) :
  Forall batch_effect
    (for_of batch (λ r,
       url ← lift (makeWhatsAppLink (phone r) message);
       emit (WindowOpen url))).1.
Proof.
  induction batch as [|r batch IH]; [constructor|].
  change (for_of (r :: batch) ?body) with (body r ;; for_of batch body).
  unfold mbind, M_bind, bind, lift, emit in *.
  destruct (makeWhatsAppLink _ _) as [u|e]; [|constructor].
  destruct (for_of batch _) as [t res]. simpl in *.
  constructor; [by left|done].
Qed.

Lemma openNextBatch_effects toOpen index :
  Forall batch_effect
    (openNextBatch batchSize delayMs message toOpen index).1.
Proof.
  unfold openNextBatch.
  pose proof (for_of_effects (slice toOpen index (index + batchSize))) as Hfor.
  unfold mbind, M_bind, bind in *.
  destruct (for_of _ _) as [t [[]|e]]; simpl in *; [|done].
  destruct (_ <? _)%Z; simpl.
  - apply Forall_app. split; [done|]. constructor; [by right|constructor].
  - by rewrite app_nil_r.
Qed.

Lemma batch_loop_effects fuel toOpen index :
  Forall (Forall batch_effect)
    (batch_loop batchSize delayMs message fuel toOpen index).1.
Proof.
  revert index. induction fuel as [|fuel IH]; intros index; [constructor|].
  simpl. pose proof (openNextBatch_effects toOpen index) as Hcall.
  destruct (openNextBatch _ _ _ _ _) as [t [[index' [|]]|e]]; simpl in *.
  - specialize (IH index'). destruct (batch_loop _ _ _ _ _ _) as [ts st].
    by constructor.
  - by repeat constructor.
  - by repeat constructor.
Qed.

Lemma batch_effect_quiet t :
  Forall batch_effect t →
  filter (λ e, is_set_sending e) t = []
  ∧ filter (λ e, is_api_call e) t = []
  ∧ filter (λ e, is_alert e) t = [].
Proof.
  induction 1 as [|e t He _ (IH1 & IH2 & IH3)]; [done|].
  rewrite !filter_cons, IH1, IH2, IH3.
  by destruct He as [He|He], e.
Qed.

(** X26: in client mode nothing ever reaches the server and nothing is
    alerted, whatever the batch size, the delay and the message; and a
    timer callback only opens tabs and sets the next timer: it never
    touches the sending flag. *)
Theorem dispatch_client_quiet (recipients : list Recipient) (fuel : nat) :
  let log := (dispatch batchSize delayMs message server fuel recipients false).1 in
  filter (λ e, is_api_call e) (mjoin log) = []
  ∧ filter (λ e, is_alert e) (mjoin log) = []
  ∧ Forall (λ t, filter (λ e, is_set_sending e) t = []) (tail log).
Proof.
  destruct (decide (message = [] ∨ recipients = [])) as [Hguard|Hpass].
  { assert (dispatch batchSize delayMs message server fuel recipients false
            = ([[]], Completed)) as ->; [|by repeat constructor].
    unfold dispatch, openLinks. destruct Hguard as [-> | ->]; [done|].
    by rewrite orb_true_r. }
  rewrite dispatch_batch_loop by tauto.
  pose proof (batch_loop_effects (S fuel) recipients 0) as Heffects.
  destruct (batch_loop _ _ _ _ _ _) as [[|t ts] st]; [by repeat constructor|].
  simpl in Heffects. apply Forall_cons in Heffects as [Ht Hts].
  assert (Forall batch_effect (mjoin ts)) as Hjoin by (by apply Forall_join).
  destruct (batch_effect_quiet t Ht) as (_ & Ht2 & Ht3).
  destruct (batch_effect_quiet _ Hjoin) as (_ & Hts2 & Hts3).
  cbn [fst tail].
  change (mjoin (?x :: ?xs)) with (x ++ mjoin xs).
  rewrite !filter_app, Ht2, Ht3, Hts2, Hts3. split_and!; [done..|].
  eapply Forall_impl; [exact Hts|]. intros t' Ht'.
  by destruct (batch_effect_quiet t' Ht').
Qed.


End TimerCallbacks.

